(** * Visitor counter service (app.py): model and properties

    The service keeps one integer in a SQLite file and exposes it over
    three Flask routes.  This development embeds

    - the SQL statements the program sends to SQLite, as functions on a
      small model of the database file (module [Sqlite]);
    - the Python functions of app.py, as computations in a state and
      exception monad over the file, the open transaction of the current
      connection, the storage faults still to come, and the log
      (module [App]);
    - the execution of several requests at once, as an interleaving of
      the storage calls each request makes (module [Concurrent]).

    Properties are stated after the definitions. *)

From Stdlib Require Import ZArith SpecFloat Lia.
From stdpp Require Import base option list gmap strings.

Open Scope string_scope.
Open Scope list_scope.
Open Scope Z_scope.

(** ** Python exceptions and results *)

(** The exception classes the modelled code can raise.  All of them are
    subclasses of Python's [Exception]. *)
Inductive exn :=
  | OperationalError   (* sqlite3: I/O failure, lock timeout, missing table *)
  | IntegrityError     (* sqlite3: constraint violated *)
  | TypeError          (* subscripting None *)
  | OverflowError      (* int() of an infinite float *)
  | ValueError.        (* int() of a NaN *)

Inductive result (A : Type) :=
  | Ok (a : A)
  | Raise (e : exn).
Arguments Ok {A} a.
Arguments Raise {A} e.

(** ** SQLite values and the statements of app.py *)

Module Sqlite.

(** The storage classes the program's statements can put in column
    [count]: a 64-bit signed INTEGER, or a REAL (IEEE binary64) once an
    integer addition has overflowed. *)
Inductive sqlite_value :=
  | Integer (z : Z)
  | Real (f : spec_float).

Definition min_int64 : Z := - 2 ^ 63.
Definition max_int64 : Z := 2 ^ 63 - 1.

Definition in_int64 (z : Z) : bool := (min_int64 <=? z) && (z <=? max_int64).

Definition prec : Z := 53.
Definition emax : Z := 1024.

Definition real_of_int (z : Z) : spec_float :=
  binary_normalize prec emax z 0 false.

Definition real_value (v : sqlite_value) : spec_float :=
  match v with
  | Integer z => real_of_int z
  | Real f => f
  end.

(** Truncation toward zero of a finite double; [None] for an infinity
    or a NaN. *)
Definition trunc_real (f : spec_float) : option Z :=
  match f with
  | S754_zero _ => Some 0
  | S754_finite s m e =>
      let a := Z.shiftl (Z.pos m) e in
      Some (if s then - a else a)
  | S754_infinity _ => None
  | S754_nan => None
  end.

Definition is_nan (f : spec_float) : bool :=
  match f with S754_nan => true | _ => false end.

(** SQLite's [+]: integer addition while the sum fits in 64 bits,
    floating-point addition otherwise; a NaN result is NULL ([None]). *)
Definition fp_add (a b : sqlite_value) : option sqlite_value :=
  let r := SFadd prec emax (real_value a) (real_value b) in
  if is_nan r then None else Some (Real r).

Definition sql_add (a b : sqlite_value) : option sqlite_value :=
  match a, b with
  | Integer x, Integer y =>
      if in_int64 (x + y) then Some (Integer (x + y)) else fp_add a b
  | _, _ => fp_add a b
  end.

(** Clamping conversion of a double to a 64-bit integer. *)
Definition double_to_int64 (f : spec_float) : Z :=
  if SFleb f (real_of_int min_int64) then min_int64
  else if SFleb (real_of_int max_int64) f then max_int64
  else default 0 (trunc_real f).

(** INTEGER column affinity: a REAL that is a whole number strictly
    inside the 64-bit range is stored as an INTEGER. *)
Definition integer_affinity (v : sqlite_value) : sqlite_value :=
  match v with
  | Integer _ => v
  | Real f =>
      let ix := double_to_int64 f in
      if SFeqb f (real_of_int ix) && (min_int64 <? ix) && (ix <? max_int64)
      then Integer ix else v
  end.

(** The database file.  [visitors = None] means the table does not
    exist (also the state of a file that does not exist yet:
    [sqlite3.connect] creates it empty).  The table is keyed by its
    INTEGER PRIMARY KEY [id]; the value is column [count]. *)
Record database := Database {
  journal_wal : bool;
  visitors : option (gmap Z sqlite_value)
}.

Definition empty_database : database :=
  {| journal_wal := false; visitors := None |}.

Definition set_visitors (t : gmap Z sqlite_value) (d : database) : database :=
  {| journal_wal := journal_wal d; visitors := Some t |}.

(** The statements the program executes. *)
Inductive statement :=
  | PragmaJournalWal   (* PRAGMA journal_mode=WAL; *)
  | CreateTable        (* CREATE TABLE IF NOT EXISTS visitors (...); *)
  | SelectCount        (* SELECT count FROM visitors WHERE id = 1; *)
  | InsertSeed         (* INSERT INTO visitors (id, count) VALUES (1, 0); *)
  | UpdateIncrement    (* UPDATE visitors SET count = count + 1 WHERE id = 1; *)
  | UpdateReset.       (* UPDATE visitors SET count = 0 WHERE id = 1; *)

(** INSERT, UPDATE, DELETE and REPLACE make the sqlite3 module open a
    transaction first. *)
Definition is_dml (s : statement) : bool :=
  match s with
  | InsertSeed | UpdateIncrement | UpdateReset => true
  | _ => false
  end.

(** INSERT of one row under the table's constraints
    [id INTEGER PRIMARY KEY CHECK(id = 1)]. *)
Definition insert_row (id : Z) (c : sqlite_value) (d : database)
  : result database :=
  match visitors d with
  | None => Raise OperationalError
  | Some t =>
      if negb (id =? 1) then Raise IntegrityError
      else match t !! id with
           | Some _ => Raise IntegrityError
           | None => Ok (set_visitors (<[id := integer_affinity c]> t) d)
           end
  end.

(** UPDATE visitors SET count = [e] WHERE id = 1, with [e] a function of
    the row's old count; column [count] is NOT NULL. *)
Definition update_row1 (e : sqlite_value -> option sqlite_value) (d : database)
  : result database :=
  match visitors d with
  | None => Raise OperationalError
  | Some t =>
      match t !! 1 with
      | None => Ok d
      | Some c =>
          match e c with
          | None => Raise IntegrityError
          | Some c' => Ok (set_visitors (<[1 := integer_affinity c']> t) d)
          end
      end
  end.

(** Execution of a statement on a database: the new database and what
    [fetchone()] returns on the cursor. *)
Definition exec_sql (s : statement) (d : database)
  : result (database * option sqlite_value) :=
  match s with
  | PragmaJournalWal =>
      Ok ({| journal_wal := true; visitors := visitors d |}, None)
  | CreateTable =>
      match visitors d with
      | None => Ok (set_visitors ∅ d, None)
      | Some _ => Ok (d, None)
      end
  | SelectCount =>
      match visitors d with
      | None => Raise OperationalError
      | Some t => Ok (d, t !! 1)
      end
  | InsertSeed =>
      match insert_row 1 (Integer 0) d with
      | Ok d' => Ok (d', None)
      | Raise e => Raise e
      end
  | UpdateIncrement =>
      match update_row1 (fun c => sql_add c (Integer 1)) d with
      | Ok d' => Ok (d', None)
      | Raise e => Raise e
      end
  | UpdateReset =>
      match update_row1 (fun _ => Some (Integer 0)) d with
      | Ok d' => Ok (d', None)
      | Raise e => Raise e
      end
  end.

End Sqlite.

(** ** Python operations on what a query returns *)

(** [int(x)] for a value read from column [count]: an [int] for an
    INTEGER, a [float] for a REAL. *)
Definition py_int (v : Sqlite.sqlite_value) : result Z :=
  match v with
  | Sqlite.Integer z => Ok z
  | Sqlite.Real f =>
      match f with
      | S754_nan => Raise ValueError
      | S754_infinity _ => Raise OverflowError
      | _ => Ok (default 0 (Sqlite.trunc_real f))
      end
  end.

(** [row["count"]], where [row] is what [fetchone()] returned. *)
Definition subscript_count (row : option Sqlite.sqlite_value)
  : result Sqlite.sqlite_value :=
  match row with
  | None => Raise TypeError
  | Some c => Ok c
  end.

(** [int(row["count"])] *)
Definition int_of_row (row : option Sqlite.sqlite_value) : result Z :=
  match subscript_count row with
  | Ok c => py_int c
  | Raise e => Raise e
  end.

(** JSON bodies: what [jsonify] is given. *)
Inductive json_value :=
  | JInt (n : Z)
  | JStr (s : string).

Definition json := list (string * json_value).

Definition jsonify (o : json) : json := o.

(** ** The Python program *)

Module App.
Import Sqlite.

Inductive level := INFO | WARNING | ERROR.

(** A record of [app.logger]; [exc_info] is the exception whose
    traceback [logger.exception] attaches. *)
Record log_record := LogRecord {
  levelname : level;
  message : string;
  exc_info : option exn
}.

(** What the program acts on.
    - [disk]: the committed content of counter.db;
    - [txn]: the private view of the connection in use while it has a
      transaction open;
    - [faults]: for each coming call into the SQLite library, whether
      the environment makes it fail (disk full, lock timeout, read-only
      file system, ...); past the end of the list every call succeeds;
    - [log]: the records written so far, oldest first. *)
Record world := World {
  disk : database;
  txn : option database;
  faults : list bool;
  log : list log_record
}.

Definition set_disk (d : database) (w : world) : world :=
  {| disk := d; txn := txn w; faults := faults w; log := log w |}.
Definition set_txn (t : option database) (w : world) : world :=
  {| disk := disk w; txn := t; faults := faults w; log := log w |}.
Definition set_faults (fs : list bool) (w : world) : world :=
  {| disk := disk w; txn := txn w; faults := fs; log := log w |}.
Definition add_log (r : log_record) (w : world) : world :=
  {| disk := disk w; txn := txn w; faults := faults w; log := log w ++ [r] |}.

(** Computations that read and write the world and may raise. *)
Definition M (A : Type) : Type := world -> result A * world.

#[export] Instance M_ret : MRet M := fun A a w => (Ok a, w).
#[export] Instance M_bind : MBind M := fun A B f c w =>
  match c w with
  | (Ok a, w') => f a w'
  | (Raise e, w') => (Raise e, w')
  end.

Definition raise {A} (e : exn) : M A := fun w => (Raise e, w).

(** A computation that touches nothing. *)
Definition pure {A} (r : result A) : M A := fun w => (r, w).

(** [try: c except Exception as exc: h exc] *)
Definition try_except {A} (c : M A) (h : exn -> M A) : M A := fun w =>
  match c w with
  | (Ok a, w') => (Ok a, w')
  | (Raise e, w') => h e w'
  end.

(** One call into the SQLite library: the environment decides whether
    it fails; a failing call has no effect on the database. *)
Definition storage_call : M unit := fun w =>
  match faults w with
  | true :: fs => (Raise OperationalError, set_faults fs w)
  | false :: fs => (Ok tt, set_faults fs w)
  | [] => (Ok tt, w)
  end.

(** A connection just opened has no transaction. *)
Definition fresh_connection : M unit := fun w => (Ok tt, set_txn None w).

(** [sqlite3.connect(DATABASE_PATH)] *)
Definition sqlite3_connect : M unit :=
  storage_call;; fresh_connection.

(** [conn.execute(s)], giving what [.fetchone()] returns.  A
    data-modifying statement first opens a transaction if none is open;
    statements run on the transaction's view when there is one, and
    directly on the file (autocommit) otherwise. *)
Definition run_statement (s : statement) : M (option sqlite_value) := fun w =>
  let w1 :=
    match txn w with
    | None => if is_dml s then set_txn (Some (disk w)) w else w
    | Some _ => w
    end in
  match txn w1 with
  | Some d =>
      match exec_sql s d with
      | Ok (d', r) => (Ok r, set_txn (Some d') w1)
      | Raise e => (Raise e, w1)
      end
  | None =>
      match exec_sql s (disk w1) with
      | Ok (d', r) => (Ok r, set_disk d' w1)
      | Raise e => (Raise e, w1)
      end
  end.

Definition execute (s : statement) : M (option sqlite_value) :=
  storage_call;; run_statement s.

(** The transaction's view becomes the content of the file. *)
Definition write_back (d : database) : M unit :=
  fun w => (Ok tt, set_txn None (set_disk d w)).

(** [conn.commit()]: nothing to do, and no call into SQLite, when no
    transaction is open. *)
Definition commit : M unit := fun w =>
  match txn w with
  | None => (Ok tt, w)
  | Some d => (storage_call;; write_back d) w
  end.

(** [conn.rollback()]: the transaction's view is dropped. *)
Definition rollback : M unit := fun w => (Ok tt, set_txn None w).

(** [with conn: body]: commit when the body returns, roll back when it
    raises (or when that commit raises); the exception propagates. *)
Definition with_connection {A} (body : M A) : M A := fun w =>
  match body w with
  | (Ok a, w1) =>
      match commit w1 with
      | (Ok _, w2) => (Ok a, w2)
      | (Raise e, w2) => (Raise e, snd (rollback w2))
      end
  | (Raise e, w1) => (Raise e, snd (rollback w1))
  end.

Definition logger (l : level) (msg : string) (exc : option exn) : M unit :=
  fun w => (Ok tt, add_log {| levelname := l; message := msg; exc_info := exc |} w).

Definition get_db_connection : M unit :=
  sqlite3_connect;;
  execute PragmaJournalWal;;
  mret tt.

(** [DATABASE_PATH.parent.mkdir(parents=True, exist_ok=True)]: the
    parent is the directory app.py itself is loaded from, so the call
    finds it present and changes nothing. *)
Definition mkdir_parent : M unit := mret tt.

Definition initialize_database : M unit :=
  mkdir_parent;;
  get_db_connection;;
  with_connection (
    execute CreateTable;;
    row ← execute SelectCount;
    match row with
    | None =>
        execute InsertSeed;;
        commit;;
        logger INFO "Initialized visitor counter at 0" None
    | Some _ => mret tt
    end).

Definition increment_and_get_count : M Z :=
  get_db_connection;;
  with_connection (
    execute UpdateIncrement;;
    commit;;
    row ← execute SelectCount;
    pure (int_of_row row)).

Definition reset_count : M Z :=
  get_db_connection;;
  with_connection (
    execute UpdateReset;;
    commit;;
    mret 0).

Definition get_visitors : M (json * Z) :=
  try_except
    (count ← increment_and_get_count;
     mret (jsonify [("count", JInt count)], 200))
    (fun exc =>
       logger ERROR "Failed to increment visitor count" (Some exc);;
       mret (jsonify [("error", JStr "Unable to read visitor count")], 500)).

Definition reset_visitors : M (json * Z) :=
  try_except
    (count ← reset_count;
     logger WARNING "Visitor counter reset by request" None;;
     mret (jsonify [("count", JInt count)], 200))
    (fun exc =>
       logger ERROR "Failed to reset visitor count" (Some exc);;
       mret (jsonify [("error", JStr "Unable to reset visitor count")], 500)).

(** A Flask response object. *)
Record response := Response {
  status_code : Z;
  headers : gmap string string;
  data : string
}.

(** [make_response(body)] for a string body.  Of the headers Flask
    sets, the model keeps Content-Type; Content-Length is left out. *)
Definition make_response (body : string) : response :=
  {| status_code := 200;
     headers := {[ "Content-Type" := "text/html; charset=utf-8" ]};
     data := body |}.

Definition set_header (k v : string) (r : response) : response :=
  {| status_code := status_code r;
     headers := <[k := v]> (headers r);
     data := data r |}.

Section Dashboard.

(** The text of the page (app.py, lines 112-472).  No property below
    depends on its characters, so it is kept as a variable. *)
Variable HOME_TEMPLATE : string.

Definition home : M response :=
  let response := make_response HOME_TEMPLATE in
  let response := set_header "Content-Type" "text/html; charset=utf-8" response in
  mret response.

End Dashboard.

(** [create_app()], which app.py also calls when the module is
    imported. *)
Definition create_app : M unit := initialize_database.

End App.

(** ** Several requests at once *)

(** Each request to GET /api/visitors runs [get_visitors] on a
    connection of its own; the requests share the file.  A request
    advances in four steps: [get_db_connection], the UPDATE, the commit
    and the SELECT with the response built from it.  The steps of
    different requests interleave in any order the write lock allows:
    the lock is taken by UPDATE, which waits while another request holds
    it, and released by [commit].  Storage faults and lock timeouts are
    not part of this model. *)
Module Concurrent.
Import Sqlite App.

(** Where a request stands in [get_visitors]. *)
Inductive request :=
  | Received                                      (* nothing executed yet *)
  | Connected                                     (* get_db_connection returned *)
  | Updated (view : option (gmap Z sqlite_value)) (* UPDATE done, transaction open *)
  | Committed                                     (* conn.commit() returned *)
  | Responded (r : json * Z).                     (* the view function returned *)

Record system := System {
  file : database;
  requests : list request
}.

Definition holds_write_lock (r : request) : bool :=
  match r with Updated _ => true | _ => false end.

Definition set_request (i : nat) (r : request) (s : system) : system :=
  {| file := file s; requests := <[i := r]> (requests s) |}.

Definition set_file (d : database) (s : system) : system :=
  {| file := d; requests := requests s |}.

(** What [get_visitors] returns, from the outcome of
    [increment_and_get_count]. *)
Definition visitors_response (r : result Z) : json * Z :=
  match r with
  | Ok count => (jsonify [("count", JInt count)], 200)
  | Raise _ => (jsonify [("error", JStr "Unable to read visitor count")], 500)
  end.

(** One step of request [i]; [None] when the request does not exist,
    has already responded, or must wait for the write lock.  The commit
    writes the table of the request's view into the file. *)
Definition step (i : nat) (s : system) : option system :=
  match requests s !! i with
  | None => None
  | Some Received =>
      match exec_sql PragmaJournalWal (file s) with
      | Ok (d, _) => Some (set_request i Connected (set_file d s))
      | Raise e => Some (set_request i (Responded (visitors_response (Raise e))) s)
      end
  | Some Connected =>
      if existsb holds_write_lock (requests s) then None
      else
        match exec_sql UpdateIncrement (file s) with
        | Ok (d, _) => Some (set_request i (Updated (visitors d)) s)
        | Raise e => Some (set_request i (Responded (visitors_response (Raise e))) s)
        end
  | Some (Updated view) =>
      Some (set_request i Committed
              (set_file {| journal_wal := journal_wal (file s); visitors := view |} s))
  | Some Committed =>
      match exec_sql SelectCount (file s) with
      | Ok (_, row) =>
          Some (set_request i (Responded (visitors_response (int_of_row row))) s)
      | Raise e => Some (set_request i (Responded (visitors_response (Raise e))) s)
      end
  | Some (Responded _) => None
  end.

(** A schedule names, step after step, the request that takes it. *)
Fixpoint run (schedule : list nat) (s : system) : option system :=
  match schedule with
  | [] => Some s
  | i :: rest =>
      match step i s with
      | Some s' => run rest s'
      | None => None
      end
  end.

Definition counter_file (c : sqlite_value) : database :=
  {| journal_wal := true; visitors := Some {[ 1 := c ]} |}.

(** [n] requests arrive while the counter holds [v]. *)
Definition arrivals (v : Z) (n : nat) : system :=
  {| file := counter_file (Integer v); requests := replicate n Received |}.

Definition has_responded (r : request) : bool :=
  match r with Responded _ => true | _ => false end.

End Concurrent.

(** ** Several workers starting at once *)

(** Each worker process imports app.py and so runs [create_app], that
    is [initialize_database], on a connection of its own; the workers
    share the file.  A worker advances in five steps:
    [get_db_connection], CREATE TABLE, the SELECT, and when that found
    no row the INSERT, which takes the write lock and waits while
    another worker holds it, and the commit.  CREATE TABLE is taken
    without waiting for the lock, so the model has every interleaving
    SQLite allows and some more.  Storage faults and lock timeouts are
    not part of this model. *)
Module Startup.
Import Sqlite App.

(** Where a worker stands in [initialize_database]. *)
Inductive worker :=
  | Booting                                        (* nothing executed yet *)
  | Opened                                         (* get_db_connection returned *)
  | Created                                        (* CREATE TABLE done *)
  | Checked                                        (* fetchone() returned None *)
  | Inserted (view : option (gmap Z sqlite_value)) (* INSERT done, transaction open *)
  | Started (logged : bool)                        (* returned; [logged]: it seeded the row *)
  | Crashed (e : exn).                             (* raised *)

Record fleet := Fleet {
  store : database;
  workers : list worker
}.

Definition holds_lock (k : worker) : bool :=
  match k with Inserted _ => true | _ => false end.

Definition set_worker (i : nat) (k : worker) (f : fleet) : fleet :=
  {| store := store f; workers := <[i := k]> (workers f) |}.

Definition set_store (d : database) (f : fleet) : fleet :=
  {| store := d; workers := workers f |}.

(** One step of worker [i]; [None] when the worker does not exist, has
    returned or raised, or must wait for the write lock. *)
Definition advance (i : nat) (f : fleet) : option fleet :=
  match workers f !! i with
  | None => None
  | Some Booting =>
      match exec_sql PragmaJournalWal (store f) with
      | Ok (d, _) => Some (set_worker i Opened (set_store d f))
      | Raise e => Some (set_worker i (Crashed e) f)
      end
  | Some Opened =>
      match exec_sql CreateTable (store f) with
      | Ok (d, _) => Some (set_worker i Created (set_store d f))
      | Raise e => Some (set_worker i (Crashed e) f)
      end
  | Some Created =>
      match exec_sql SelectCount (store f) with
      | Ok (_, None) => Some (set_worker i Checked f)
      | Ok (_, Some _) => Some (set_worker i (Started false) f)
      | Raise e => Some (set_worker i (Crashed e) f)
      end
  | Some Checked =>
      if existsb holds_lock (workers f) then None
      else
        match exec_sql InsertSeed (store f) with
        | Ok (d, _) => Some (set_worker i (Inserted (visitors d)) f)
        | Raise e => Some (set_worker i (Crashed e) f)
        end
  | Some (Inserted view) =>
      Some (set_worker i (Started true)
              (set_store {| journal_wal := journal_wal (store f); visitors := view |} f))
  | Some (Started _) => None
  | Some (Crashed _) => None
  end.

Fixpoint boot (schedule : list nat) (f : fleet) : option fleet :=
  match schedule with
  | [] => Some f
  | i :: rest =>
      match advance i f with
      | Some f' => boot rest f'
      | None => None
      end
  end.

(** [n] workers start on the file [d]. *)
Definition start_up (d : database) (n : nat) : fleet :=
  {| store := d; workers := replicate n Booting |}.

Definition has_finished (k : worker) : bool :=
  match k with Started _ | Crashed _ => true | _ => false end.

End Startup.

(** ** Vocabulary of the properties *)

Import Sqlite App Concurrent.

(** Result and final world of a computation. *)
Definition returned {A} (c : M A) (w : world) : result A := (c w).1.
Definition after {A} (c : M A) (w : world) : world := (c w).2.

(** The table as stored in the file, and its counter row. *)
Definition stored_table (w : world) : option (gmap Z sqlite_value) :=
  visitors (disk w).

Definition stored_count (w : world) : option sqlite_value :=
  t ← visitors (disk w); t !! 1.

(** A world at rest: no transaction open and no fault to come. *)
Definition at_rest (d : database) (l : list log_record) : world :=
  {| disk := d; txn := None; faults := []; log := l |}.

Definition wal_file (t : gmap Z sqlite_value) : database :=
  {| journal_wal := true; visitors := Some t |}.

(** [n] calls of [c] in a row, stopping at the first that raises. *)
Fixpoint repeat_calls (n : nat) (c : M unit) : M unit :=
  match n with
  | O => mret tt
  | S k => c;; repeat_calls k c
  end.

(** The two operations of the counter store, and sequences of them; a
    sequence goes on after an operation that raised, as a server goes on
    after a request that failed. *)
Inductive operation := Increment | Reset.

Definition perform (o : operation) : M Z :=
  match o with
  | Increment => increment_and_get_count
  | Reset => reset_count
  end.

Definition perform_all (ops : list operation) (w : world) : world :=
  fold_left (fun w o => after (perform o) w) ops w.

(** The count as the program reads it: [int(row["count"])]. *)
Definition count_of (w : world) : result Z := int_of_row (stored_count w).

(** The table initialization leaves when it succeeds. *)
Definition seeded (o : option (gmap Z sqlite_value)) : gmap Z sqlite_value :=
  match o with
  | None => {[ 1 := Integer 0 ]}
  | Some t =>
      match t !! 1 with
      | Some _ => t
      | None => <[1 := Integer 0]> t
      end
  end.

(** 2^63 as a double: what the count becomes when an increment leaves
    the 64-bit range. *)
Definition two_63 : spec_float := S754_finite false 4503599627370496 11.

(** The counts the program can produce from a seeded counter: a
    non-negative 64-bit INTEGER, or the whole number 2^63 held as a
    REAL. *)
Definition producible (c : sqlite_value) : Prop :=
  (∃ z, c = Integer z ∧ 0 ≤ z ≤ max_int64) ∨ c = Real two_63.

(** The state invariant of the data model: the table exists and holds
    exactly one row, of identity 1, whose count is a non-negative
    integer, one the program can produce. *)
Definition seeded_counter (w : world) : Prop :=
  ∃ c, stored_table w = Some {[ 1 := c ]} ∧ producible c.

(** *** Several requests at once *)

(** The number of requests of a list that satisfy [p]. *)
Fixpoint count_if (p : request → bool) (l : list request) : nat :=
  match l with
  | [] => 0
  | r :: l' => (if p r then 1 else 0) + count_if p l'
  end.

(** The request has committed its UPDATE. *)
Definition has_committed (r : request) : bool :=
  match r with Committed | Responded _ => true | _ => false end.

Definition all_responded (s : system) : bool :=
  forallb has_responded (requests s).

(** What holds of every system reached from [arrivals v n]: with [k]
    the number of requests that have committed, the file holds [v + k];
    at most one request holds the write lock, and its view holds
    [v + k + 1]; every answer given is a count between [v + 1] and
    [v + k], with status 200. *)
Definition coherent (v : Z) (n : nat) (s : system) : Prop :=
  let k := Z.of_nat (count_if has_committed (requests s)) in
  length (requests s) = n
  ∧ file s = counter_file (Integer (v + k))
  ∧ (count_if holds_write_lock (requests s) ≤ 1)%nat
  ∧ (∀ i view, requests s !! i = Some (Updated view) →
       view = Some {[ 1 := Integer (v + k + 1) ]})
  ∧ (∀ i r, requests s !! i = Some (Responded r) →
       ∃ c, r = visitors_response (Ok c) ∧ v + 1 ≤ c ≤ v + k).

(** The schedule that runs the requests one after the other, each to
    its response. *)
Definition serial (n : nat) : list nat :=
  flat_map (fun i => [i; i; i; i]) (seq 0 n).

(** The answers of [j] requests served one after the other from [v]. *)
Definition answers (v : Z) (j : nat) : list request :=
  map (fun i => Responded (visitors_response (Ok (v + 1 + Z.of_nat i)))) (seq 0 j).

(** *** Sequences of operations and the log *)

(** What an abstract counter holds after [ops], from [z]. *)
Definition tally (ops : list operation) (z : Z) : Z :=
  fold_left (fun c o => match o with Increment => c + 1 | Reset => 0 end) ops z.

(** The record [initialize_database] logs when it seeds the row. *)
Definition seeded_record : log_record :=
  {| levelname := INFO; message := "Initialized visitor counter at 0";
     exc_info := None |}.

(** *** Several workers starting at once *)

Import Startup.

(** The number of workers of a list that satisfy [p]. *)
Fixpoint count_workers (p : worker → bool) (l : list worker) : nat :=
  match l with
  | [] => 0
  | k :: l' => (if p k then 1 else 0) + count_workers p l'
  end.

(** The worker inserted the row, committed and logged it. *)
Definition has_seeded (k : worker) : bool :=
  match k with Started true => true | _ => false end.

(** The worker is past its CREATE TABLE. *)
Definition has_table (k : worker) : bool :=
  match k with Booting | Opened => false | _ => true end.

(** The worker found the row there, at its SELECT or at its INSERT. *)
Definition saw_row (k : worker) : bool :=
  match k with Started false | Crashed _ => true | _ => false end.

Definition all_finished (f : fleet) : bool :=
  forallb has_finished (workers f).

(** What holds of every fleet reached from a start on a store without
    the counter row: the table is absent, empty, or holds the single
    row (1, 0); a worker past CREATE TABLE implies the table exists; at
    most one worker has inserted or seeded the row; the row is in the
    file exactly when one worker has seeded it; a worker that found the
    row returned without seeding or raised [IntegrityError]. *)
Definition orderly (n : nat) (f : fleet) : Prop :=
  let l := workers f in
  let tb := visitors (store f) in
  length l = n
  ∧ (tb = None ∨ tb = Some ∅ ∨ tb = Some {[ 1 := Integer 0 ]})
  ∧ (∀ i k, l !! i = Some k → has_table k = true → tb ≠ None)
  ∧ (count_workers holds_lock l + count_workers has_seeded l ≤ 1)%nat
  ∧ (∀ i view, l !! i = Some (Inserted view) →
       view = Some {[ 1 := Integer 0 ]} ∧ tb = Some ∅)
  ∧ (tb = Some {[ 1 := Integer 0 ]} ↔ count_workers has_seeded l = 1%nat)
  ∧ (∀ i k, l !! i = Some k → saw_row k = true →
       tb = Some {[ 1 := Integer 0 ]}
       ∧ (k = Started false ∨ k = Crashed IntegrityError)).

(** A worker that has met nothing but an existing row. *)
Definition unseeding (k : worker) : Prop :=
  k = Booting ∨ k = Opened ∨ k = Created ∨ k = Started false.

(** ** Evaluating the program *)

#[local] Arguments int_of_row : simpl never.

Ltac unfold_app H :=
  unfold increment_and_get_count, reset_count, initialize_database,
    get_db_connection, mkdir_parent, with_connection, sqlite3_connect,
    fresh_connection, execute, commit, write_back, rollback, storage_call,
    run_statement, logger, pure, try_except, raise, mbind, mret, M_bind, M_ret,
    set_txn, set_disk, set_faults, add_log, set_visitors in H.

(** Case analysis along an execution: on the next fault, on the presence
    of the counter row, on the outcome of the addition and of [int]. *)
Ltac crunch H :=
  repeat (cbn in H;
    match type of H with
    | context [match ?fs with [] => _ | _ :: _ => _ end] =>
        is_var fs; destruct fs as [|[] ?]
    | context [<[1 := ?v]> ?t !! 1] => rewrite (lookup_insert_eq t 1 v) in H
    | context [∅ !! 1] => rewrite lookup_empty in H
    | context [?t !! 1] =>
        match goal with
        | Hr : t !! 1 = _ |- _ => rewrite Hr in H
        | _ => let E := fresh "Hrow" in destruct (t !! 1) eqn:E
        end
    | context [match sql_add ?a ?b with Some _ => _ | None => _ end] =>
        match goal with
        | Ha : sql_add a b = _ |- _ => rewrite Ha in H
        | _ => let E := fresh "Hadd" in destruct (sql_add a b) eqn:E
        end
    | context [int_of_row None] =>
        change (int_of_row None) with (@Raise Z TypeError) in H
    | context [match int_of_row ?x with Ok _ => _ | Raise _ => _ end] =>
        let E := fresh "Hint" in destruct (int_of_row x) eqn:E
    end);
  cbn in H.

(** *** Outcomes under any faults *)

Lemma reset_cases (w : world) r w' :
  reset_count w = (r, w') →
  log w' = log w ∧
  ((stored_table w' = stored_table w ∧ ∃ e, r = Raise e)
   ∨ (r = Ok 0 ∧
      ∃ t, stored_table w = Some t ∧
        stored_table w' =
          Some (match t !! 1 with Some _ => <[1 := Integer 0]> t | None => t end))).
Proof.
  unfold stored_table.
  destruct w as [[j [t|]] x fs l]; intros H; unfold_app H; crunch H.
  all: injection H as <- <-; cbn; split; [reflexivity|].
  all: try (left; split; [reflexivity|eexists; reflexivity]).
  all: right; split; [reflexivity|]; eexists; split; [reflexivity|].
  all: rewrite ?Hrow; reflexivity.
Qed.

Lemma increment_cases (w : world) r w' :
  increment_and_get_count w = (r, w') →
  log w' = log w ∧
  ((stored_table w' = stored_table w ∧ ∃ e, r = Raise e)
   ∨ (∃ t c c', stored_table w = Some t ∧ t !! 1 = Some c ∧
        sql_add c (Integer 1) = Some c' ∧
        stored_table w' = Some (<[1 := integer_affinity c']> t) ∧
        (r = int_of_row (Some (integer_affinity c')) ∨ r = Raise OperationalError))).
Proof.
  unfold stored_table.
  destruct w as [[j [t|]] x fs l]; intros H; unfold_app H; crunch H.
  all: injection H as <- <-; cbn; split; [reflexivity|].
  all: try (left; split; [reflexivity|eexists; reflexivity]).
  all: right; eexists _, _, _; repeat split; try eassumption; try reflexivity.
  all: rewrite ?Hint; auto.
Qed.

Lemma initialize_cases (w : world) r w' :
  initialize_database w = (r, w') →
  match r with
  | Ok _ => stored_table w' = Some (seeded (stored_table w))
  | Raise _ =>
      stored_table w' = stored_table w
      ∨ (stored_table w = None ∧ stored_table w' = Some ∅)
  end.
Proof.
  unfold stored_table, seeded.
  destruct w as [[j [t|]] x fs l]; intros H; unfold_app H; crunch H.
  all: injection H as <- <-; cbn; rewrite ?Hrow; auto.
Qed.

Lemma initialize_keeps_row (w : world) t c :
  stored_table w = Some t → t !! 1 = Some c →
  stored_table (after initialize_database w) = Some t.
Proof.
  intros Ht Hc. unfold after.
  destruct (initialize_database w) as [r w'] eqn:H. cbn.
  pose proof (initialize_cases _ _ _ H) as Hi. rewrite Ht in Hi.
  unfold seeded in Hi. rewrite Hc in Hi.
  destruct r; [exact Hi|]. destruct Hi as [Hi|[Hi _]]; [exact Hi|discriminate].
Qed.

(** *** Outcomes when no fault occurs *)

(** Evaluation of [c w] for a world [w] without faults to come. *)
Ltac no_fault w :=
  destruct w as [[? ?] ? ? ?]; unfold stored_table, at_rest, wal_file in *;
  cbn in *; subst;
  match goal with
  | |- ?c ?w0 = _ =>
      let H := fresh "H" in
      destruct (c w0) as [? ?] eqn:H; unfold_app H; crunch H;
      injection H as <- <-
  end.

Lemma initialize_seeds (w : world) :
  faults w = [] → stored_table w = None →
  initialize_database w =
    (Ok tt,
     at_rest (wal_file {[ 1 := Integer 0 ]})
       (log w ++ [ {| levelname := INFO;
                      message := "Initialized visitor counter at 0";
                      exc_info := None |} ])).
Proof. intros Hf Ht. no_fault w. reflexivity. Qed.

Lemma initialize_seeds_row (w : world) t :
  faults w = [] → stored_table w = Some t → t !! 1 = None →
  initialize_database w =
    (Ok tt,
     at_rest (wal_file (<[1 := Integer 0]> t))
       (log w ++ [ {| levelname := INFO;
                      message := "Initialized visitor counter at 0";
                      exc_info := None |} ])).
Proof. intros Hf Ht Hc. no_fault w. reflexivity. Qed.

Lemma initialize_keeps (w : world) t c :
  faults w = [] → stored_table w = Some t → t !! 1 = Some c →
  initialize_database w = (Ok tt, at_rest (wal_file t) (log w)).
Proof. intros Hf Ht Hc. no_fault w. reflexivity. Qed.

Lemma increment_no_fault (w : world) t c c' :
  faults w = [] → stored_table w = Some t → t !! 1 = Some c →
  sql_add c (Integer 1) = Some c' →
  increment_and_get_count w =
    (int_of_row (Some (integer_affinity c')),
     at_rest (wal_file (<[1 := integer_affinity c']> t)) (log w)).
Proof. intros Hf Ht Hc Ha. no_fault w; reflexivity. Qed.

Lemma increment_no_row (w : world) t :
  faults w = [] → stored_table w = Some t → t !! 1 = None →
  increment_and_get_count w = (Raise TypeError, at_rest (wal_file t) (log w)).
Proof. intros Hf Ht Hc. no_fault w. reflexivity. Qed.

Lemma reset_no_fault (w : world) t :
  faults w = [] → stored_table w = Some t →
  reset_count w =
    (Ok 0,
     at_rest
       (wal_file (match t !! 1 with Some _ => <[1 := Integer 0]> t | None => t end))
       (log w)).
Proof. intros Hf Ht. no_fault w; reflexivity. Qed.

(** *** The addition of SQLite at the counts the program meets *)

Lemma sql_add_integer (z : Z) :
  min_int64 ≤ z < max_int64 →
  sql_add (Integer z) (Integer 1) = Some (Integer (z + 1)).
Proof.
  intros Hz. unfold sql_add, in_int64.
  destruct (Z.leb_spec min_int64 (z + 1)), (Z.leb_spec (z + 1) max_int64);
    try reflexivity; unfold min_int64, max_int64 in *; lia.
Qed.

Lemma sql_add_max_int64 :
  sql_add (Integer max_int64) (Integer 1) = Some (Real two_63).
Proof. vm_compute. reflexivity. Qed.

Lemma sql_add_two_63 :
  sql_add (Real two_63) (Integer 1) = Some (Real two_63).
Proof. vm_compute. reflexivity. Qed.

Lemma two_63_stays_real : integer_affinity (Real two_63) = Real two_63.
Proof. vm_compute. reflexivity. Qed.

Lemma py_int_two_63 : py_int (Real two_63) = Ok (2 ^ 63).
Proof. vm_compute. reflexivity. Qed.

(** *** What the endpoints make of the store's outcome *)

Lemma get_visitors_of_increment (w : world) :
  get_visitors w =
    match increment_and_get_count w with
    | (Ok n, w') => (Ok ([("count", JInt n)], 200), w')
    | (Raise e, w') =>
        (Ok ([("error", JStr "Unable to read visitor count")], 500),
         add_log {| levelname := ERROR;
                    message := "Failed to increment visitor count";
                    exc_info := Some e |} w')
    end.
Proof.
  unfold get_visitors, try_except, mbind, M_bind.
  destruct (increment_and_get_count w) as [[n|e] w']; reflexivity.
Qed.

Lemma reset_visitors_of_reset (w : world) :
  reset_visitors w =
    match reset_count w with
    | (Ok n, w') =>
        (Ok ([("count", JInt n)], 200),
         add_log {| levelname := WARNING;
                    message := "Visitor counter reset by request";
                    exc_info := None |} w')
    | (Raise e, w') =>
        (Ok ([("error", JStr "Unable to reset visitor count")], 500),
         add_log {| levelname := ERROR;
                    message := "Failed to reset visitor count";
                    exc_info := Some e |} w')
    end.
Proof.
  unfold reset_visitors, try_except, mbind, M_bind.
  destruct (reset_count w) as [[n|e] w']; reflexivity.
Qed.

Lemma reset_returns_zero (w : world) n w' :
  reset_count w = (Ok n, w') → n = 0.
Proof.
  intros H. destruct (reset_cases _ _ _ H) as [_ [[_ [e He]]|[He _]]];
    congruence.
Qed.

(** *** A successful increment, whatever the faults *)

Lemma increment_integer (z : Z) :
  min_int64 ≤ z ≤ max_int64 →
  ∃ c', sql_add (Integer z) (Integer 1) = Some c'
        ∧ int_of_row (Some (integer_affinity c')) = Ok (z + 1).
Proof.
  intros Hz. destruct (Z.eq_dec z max_int64) as [->|Hne].
  - exists (Real two_63). split; vm_compute; reflexivity.
  - exists (Integer (z + 1)). split; [|reflexivity].
    apply sql_add_integer. lia.
Qed.

Lemma stored_count_insert (w : world) t c :
  stored_table w = Some (<[1 := c]> t) → stored_count w = Some c.
Proof.
  unfold stored_table, stored_count. intros ->. cbn. apply lookup_insert_eq.
Qed.

Lemma increment_success (w : world) t z n w' :
  stored_table w = Some t → t !! 1 = Some (Integer z) →
  min_int64 ≤ z ≤ max_int64 →
  increment_and_get_count w = (Ok n, w') →
  n = z + 1 ∧ count_of w' = Ok (z + 1).
Proof.
  intros Ht Hc Hz H.
  destruct (increment_integer z Hz) as (c' & Ha & Hi).
  destruct (increment_cases _ _ _ H) as [_ [[_ [e He]]|(t0 & c0 & c0' & Ht0 & Hc0 & Ha0 & Ht' & Hr)]];
    [discriminate|].
  assert (t0 = t) by congruence. subst t0.
  assert (c0 = Integer z) by congruence. subst c0.
  assert (c0' = c') by congruence. subst c0'.
  unfold count_of. rewrite (stored_count_insert _ _ _ Ht'), Hi.
  destruct Hr as [Hr|Hr]; [|discriminate]. split; congruence.
Qed.

(** ** The end-to-end scenario *)

(** C2.  From a store that does not exist yet, initialization gives a
    single row with count 0; then GET /api/visitors, GET /api/visitors,
    POST /api/reset, GET /api/visitors answer, in this order, status 200
    with bodies count 1, count 2, count 0 and count 1, and after each
    request the single row holds the count just returned.  In general,
    for a world [w] whose counter row holds a 64-bit integer [z], with
    any faults to come, GET /api/visitors either answers status 500, or
    answers status 200 with body count [z + 1] and leaves a stored count
    that reads [z + 1]. *)
Theorem end_to_end_scenario (w0 w : world) (t : gmap Z sqlite_value) (z : Z) :
  stored_table w0 = None → faults w0 = [] →
  stored_table w = Some t → t !! 1 = Some (Integer z) →
  min_int64 ≤ z ≤ max_int64 →
  let v := after initialize_database w0 in
  let v1 := after get_visitors v in
  let v2 := after get_visitors v1 in
  let v3 := after reset_visitors v2 in
  let v4 := after get_visitors v3 in
  (returned initialize_database w0 = Ok tt
   ∧ stored_table v = Some {[ 1 := Integer 0 ]})
  ∧ (returned get_visitors v = Ok ([("count", JInt 1)], 200)
     ∧ stored_table v1 = Some {[ 1 := Integer 1 ]})
  ∧ (returned get_visitors v1 = Ok ([("count", JInt 2)], 200)
     ∧ stored_table v2 = Some {[ 1 := Integer 2 ]})
  ∧ (returned reset_visitors v2 = Ok ([("count", JInt 0)], 200)
     ∧ stored_table v3 = Some {[ 1 := Integer 0 ]})
  ∧ (returned get_visitors v3 = Ok ([("count", JInt 1)], 200)
     ∧ stored_table v4 = Some {[ 1 := Integer 1 ]})
  ∧ (returned get_visitors w
       = Ok ([("error", JStr "Unable to read visitor count")], 500)
     ∨ (returned get_visitors w = Ok ([("count", JInt (z + 1))], 200)
        ∧ count_of (after get_visitors w) = Ok (z + 1))).
Proof.
  intros Ht0 Hf0 Ht Hc Hz. repeat apply conj.
  1-10: destruct w0 as [[j v] x fs l];
        unfold stored_table in Ht0; cbn in Ht0, Hf0; subst v fs;
        vm_compute; reflexivity.
  unfold returned, after. rewrite get_visitors_of_increment.
  destruct (increment_and_get_count w) as [[n|e] w'] eqn:H; cbn.
  - right. destruct (increment_success _ _ _ _ _ Ht Hc Hz H) as [-> Hn].
    split; [reflexivity|exact Hn].
  - left. reflexivity.
Qed.

Lemma end_to_end_scenario_witness :
  returned get_visitors
    (after get_visitors (after initialize_database (at_rest empty_database [])))
  = Ok ([("count", JInt 2)], 200).
Proof.
  assert (Hz : min_int64 ≤ 7 ≤ max_int64) by (unfold min_int64, max_int64; lia).
  exact (proj1 (proj1 (proj2 (proj2
    (end_to_end_scenario (at_rest empty_database [])
       (at_rest (wal_file {[ 1 := Integer 7 ]}) []) {[ 1 := Integer 7 ]} 7
       eq_refl eq_refl eq_refl eq_refl Hz))))).
Defined.

(** ** Reset *)

(** C3.  With no fault to come and the counter row present, whatever it
    holds, [reset_count] returns 0 and leaves the row at 0; a second
    reset returns 0 again and changes nothing; and an increment right
    after the reset (or after both) returns 1. *)
Theorem reset_count_idempotent (w : world) (t : gmap Z sqlite_value)
    (c : sqlite_value) :
  faults w = [] → stored_table w = Some t → t !! 1 = Some c →
  let w1 := after reset_count w in
  let w2 := after reset_count w1 in
  (returned reset_count w = Ok 0
   ∧ stored_table w1 = Some (<[1 := Integer 0]> t)
   ∧ stored_count w1 = Some (Integer 0))
  ∧ (returned reset_count w1 = Ok 0 ∧ w2 = w1)
  ∧ returned increment_and_get_count w1 = Ok 1
  ∧ returned increment_and_get_count w2 = Ok 1.
Proof.
  intros Hf Ht Hc.
  assert (H1 : reset_count w
               = (Ok 0, at_rest (wal_file (<[1 := Integer 0]> t)) (log w))).
  { rewrite (reset_no_fault w t Hf Ht), Hc. reflexivity. }
  set (w1 := at_rest (wal_file (<[1 := Integer 0]> t)) (log w)) in *.
  assert (H2 : reset_count w1 = (Ok 0, w1)).
  { rewrite (reset_no_fault w1 (<[1 := Integer 0]> t) eq_refl eq_refl).
    rewrite lookup_insert_eq, insert_insert_eq. reflexivity. }
  assert (H3 : returned increment_and_get_count w1 = Ok 1).
  { unfold returned.
    rewrite (increment_no_fault w1 (<[1 := Integer 0]> t) (Integer 0) (Integer 1)
               eq_refl eq_refl (lookup_insert_eq _ _ _) eq_refl).
    reflexivity. }
  unfold returned, after in *. cbn zeta. rewrite H1. cbn [fst snd].
  rewrite H2. cbn [fst snd].
  repeat apply conj; try reflexivity; try exact H3.
  apply (stored_count_insert w1 t). reflexivity.
Qed.

Lemma reset_count_idempotent_witness :
  returned increment_and_get_count
    (after reset_count (at_rest (wal_file {[ 1 := Integer 41 ]}) []))
  = Ok 1.
Proof.
  exact (proj1 (proj2 (proj2
    (reset_count_idempotent (at_rest (wal_file {[ 1 := Integer 41 ]}) [])
       {[ 1 := Integer 41 ]} (Integer 41) eq_refl eq_refl eq_refl)))).
Defined.

(** ** Initialization *)

Lemma repeat_initialize_keeps (n : nat) (w : world) t c :
  faults w = [] → stored_table w = Some t → t !! 1 = Some c →
  returned (repeat_calls n initialize_database) w = Ok tt
  ∧ stored_table (after (repeat_calls n initialize_database) w) = Some t
  ∧ faults (after (repeat_calls n initialize_database) w) = []
  ∧ log (after (repeat_calls n initialize_database) w) = log w.
Proof.
  revert w. induction n as [|n IH]; intros w Hf Ht Hc.
  - repeat split; assumption.
  - assert (Hs : repeat_calls (S n) initialize_database w
                 = repeat_calls n initialize_database
                     (at_rest (wal_file t) (log w))).
    { cbn [repeat_calls]. unfold mbind at 1. unfold M_bind at 1.
      rewrite (initialize_keeps w t c Hf Ht Hc). reflexivity. }
    unfold returned, after in *. rewrite Hs.
    apply (IH (at_rest (wal_file t) (log w))); [reflexivity|reflexivity|exact Hc].
Qed.

Lemma repeat_initialize_keeps_row (n : nat) (w : world) t c :
  stored_table w = Some t → t !! 1 = Some c →
  stored_table (after (repeat_calls n initialize_database) w) = Some t.
Proof.
  revert w. induction n as [|n IH]; intros w Ht Hc; [exact Ht|].
  pose proof (initialize_keeps_row w t c Ht Hc) as Hk.
  unfold after in *. cbn [repeat_calls]. unfold mbind at 1. unfold M_bind at 1.
  destruct (initialize_database w) as [[[]|e] w1]; cbn [snd] in *.
  - apply IH; assumption.
  - exact Hk.
Qed.

(** C4.  On a store [u] whose table holds the single row (1, K), K a
    64-bit integer, any number [n] of calls of [initialize_database],
    whatever the faults, leave the table with that single row, still at
    K.  With no fault to come, on such a store [w], the [n] calls all
    succeed and the next [increment_and_get_count] returns K + 1; and on
    a store [e] without the table, initialization creates it with
    exactly one row, of identity 1 and count 0. *)
Theorem initialize_database_idempotent (u w e : world) (K : Z) (n : nat) :
  stored_table u = Some {[ 1 := Integer K ]} →
  faults w = [] → stored_table w = Some {[ 1 := Integer K ]} →
  min_int64 ≤ K ≤ max_int64 →
  faults e = [] → stored_table e = None →
  let w' := after (repeat_calls n initialize_database) w in
  stored_table (after (repeat_calls n initialize_database) u)
    = Some {[ 1 := Integer K ]}
  ∧ (returned (repeat_calls n initialize_database) w = Ok tt
     ∧ stored_table w' = Some {[ 1 := Integer K ]}
     ∧ returned increment_and_get_count w' = Ok (K + 1))
  ∧ (returned initialize_database e = Ok tt
     ∧ stored_table (after initialize_database e) = Some {[ 1 := Integer 0 ]}).
Proof.
  intros Hu Hf Ht HK Hfe Hte. cbn zeta.
  split; [exact (repeat_initialize_keeps_row n u _ _ Hu (lookup_singleton_eq _ _))|].
  destruct (repeat_initialize_keeps n w {[ 1 := Integer K ]} (Integer K) Hf Ht
              (lookup_singleton_eq _ _)) as (Hr & Ht' & Hf' & _).
  destruct (increment_integer K HK) as (c' & Ha & Hi).
  repeat apply conj.
  - exact Hr.
  - exact Ht'.
  - unfold returned.
    rewrite (increment_no_fault _ _ _ _ Hf' Ht' (lookup_singleton_eq _ _) Ha).
    exact Hi.
  - unfold returned. rewrite (initialize_seeds e Hfe Hte). reflexivity.
  - unfold after. rewrite (initialize_seeds e Hfe Hte). reflexivity.
Qed.

Lemma initialize_database_idempotent_witness :
  returned increment_and_get_count
    (after (repeat_calls 3 initialize_database)
       (at_rest (wal_file {[ 1 := Integer 5 ]}) []))
  = Ok (5 + 1).
Proof.
  assert (HK : min_int64 ≤ 5 ≤ max_int64) by (unfold min_int64, max_int64; lia).
  exact (proj2 (proj2 (proj1 (proj2
    (initialize_database_idempotent
       {| disk := wal_file {[ 1 := Integer 5 ]}; txn := None;
          faults := [false; false; true]; log := [] |}
       (at_rest (wal_file {[ 1 := Integer 5 ]}) []) (at_rest empty_database [])
       5 3 eq_refl eq_refl eq_refl HK eq_refl eq_refl))))).
Defined.

(** ** The state invariant *)

Lemma producible_reads (c : sqlite_value) :
  producible c → ∃ n, py_int c = Ok n ∧ 0 ≤ n.
Proof.
  intros [(z & -> & Hz)| ->].
  - exists z. split; [reflexivity|lia].
  - exists (2 ^ 63). split; [exact py_int_two_63|lia].
Qed.

Lemma producible_increment (c c' : sqlite_value) :
  producible c → sql_add c (Integer 1) = Some c' →
  producible (integer_affinity c')
  ∧ ∃ n n', py_int c = Ok n ∧ py_int (integer_affinity c') = Ok n'
            ∧ (n' = n + 1 ∨ n' = n).
Proof.
  intros [(z & -> & Hz)| ->] Ha.
  - destruct (Z.eq_dec z max_int64) as [->|Hne].
    + rewrite sql_add_max_int64 in Ha. injection Ha as <-.
      rewrite two_63_stays_real. split; [right; reflexivity|].
      exists max_int64, (2 ^ 63).
      split; [reflexivity|split; [exact py_int_two_63|]].
      left. unfold max_int64. lia.
    + rewrite sql_add_integer in Ha by (unfold min_int64; lia).
      injection Ha as <-. split.
      * left. exists (z + 1). split; [reflexivity|lia].
      * exists z, (z + 1). split; [reflexivity|split; [reflexivity|]].
        left. reflexivity.
  - rewrite sql_add_two_63 in Ha. injection Ha as <-.
    rewrite two_63_stays_real. split; [right; reflexivity|].
    exists (2 ^ 63), (2 ^ 63).
    split; [exact py_int_two_63|split; [exact py_int_two_63|]].
    right. reflexivity.
Qed.

(** The two ends of the 64-bit range: the increment of 2^63 - 1 is
    stored as the REAL 2^63 and returned as the integer 2^63; from then
    on an increment succeeds and changes nothing, 2^63 + 1 rounding to
    2^63. *)
Lemma increment_at_max_int64 :
  let w := at_rest (wal_file {[ 1 := Integer max_int64 ]}) [] in
  returned increment_and_get_count w = Ok (2 ^ 63)
  ∧ stored_table (after increment_and_get_count w) = Some {[ 1 := Real two_63 ]}.
Proof. vm_compute. split; reflexivity. Qed.

Lemma increment_at_two_63 :
  let w := at_rest (wal_file {[ 1 := Real two_63 ]}) [] in
  returned increment_and_get_count w = Ok (2 ^ 63)
  ∧ stored_table (after increment_and_get_count w) = Some {[ 1 := Real two_63 ]}.
Proof. vm_compute. split; reflexivity. Qed.

Lemma count_of_single (w : world) c :
  stored_table w = Some {[ 1 := c ]} → count_of w = py_int c.
Proof.
  unfold count_of, stored_count, stored_table. intros ->. cbn.
  rewrite lookup_singleton_eq. reflexivity.
Qed.

Lemma perform_step (o : operation) (w : world) :
  seeded_counter w →
  seeded_counter (after (perform o) w)
  ∧ ∃ n n', count_of w = Ok n ∧ count_of (after (perform o) w) = Ok n'
            ∧ match o with
              | Increment => n' = n + 1 ∨ n' = n
              | Reset => n' = 0 ∨ n' = n
              end.
Proof.
  intros (c & Ht & Hc). destruct (producible_reads c Hc) as (n & Hn & H0).
  unfold after. destruct (perform o w) as [r w'] eqn:H. cbn [snd].
  rewrite (count_of_single w c Ht).
  destruct o; cbn [perform] in H.
  - destruct (increment_cases _ _ _ H)
      as [_ [[Hs _]|(t & c0 & c' & Ht0 & Hc0 & Ha & Ht' & _)]].
    + rewrite Ht in Hs. split; [exists c; auto|].
      exists n, n. rewrite (count_of_single w' c Hs). auto.
    + rewrite Ht in Ht0. injection Ht0 as <-.
      rewrite lookup_singleton_eq in Hc0. injection Hc0 as <-.
      rewrite insert_singleton_eq in Ht'.
      destruct (producible_increment c c' Hc Ha) as (Hp & m & m' & Hm & Hm' & Hstep).
      split; [exists (integer_affinity c'); auto|].
      exists m, m'. rewrite (count_of_single w' _ Ht'). auto.
  - destruct (reset_cases _ _ _ H) as [_ [[Hs _]|(_ & t & Ht0 & Ht')]].
    + rewrite Ht in Hs. split; [exists c; auto|].
      exists n, n. rewrite (count_of_single w' c Hs). auto.
    + rewrite Ht in Ht0. injection Ht0 as <-.
      rewrite lookup_singleton_eq, insert_singleton_eq in Ht'.
      split.
      * exists (Integer 0). split; [exact Ht'|].
        left. exists 0. split; [reflexivity|unfold max_int64; lia].
      * exists n, 0. rewrite (count_of_single w' _ Ht'). auto.
Qed.

Lemma perform_all_seeded (ops : list operation) (w : world) :
  seeded_counter w → seeded_counter (perform_all ops w).
Proof.
  revert w. induction ops as [|o ops IH]; intros w Hw; [exact Hw|].
  cbn. apply IH. apply (perform_step o w Hw).
Qed.

Lemma initialize_seeded (w0 w : world) :
  stored_table w0 = None → initialize_database w0 = (Ok tt, w) →
  seeded_counter w.
Proof.
  intros Ht H. pose proof (initialize_cases _ _ _ H) as Hi. cbn in Hi.
  rewrite Ht in Hi. exists (Integer 0). split; [exact Hi|].
  left. exists 0. split; [reflexivity|unfold max_int64; lia].
Qed.

(** What an increment that SQLite carried out makes of a producible
    count, on the stored value itself. *)
Lemma producible_increment_exact (c c' : sqlite_value) :
  producible c → sql_add c (Integer 1) = Some c' →
  (∃ z, c = Integer z ∧ 0 ≤ z < max_int64
        ∧ integer_affinity c' = Integer (z + 1))
  ∨ (c = Integer max_int64 ∧ integer_affinity c' = Real two_63)
  ∨ integer_affinity c' = c.
Proof.
  intros [(z & -> & Hz)| ->] Ha.
  - destruct (Z.eq_dec z max_int64) as [->|Hne].
    + rewrite sql_add_max_int64 in Ha. injection Ha as <-.
      right. left. split; [reflexivity|exact two_63_stays_real].
    + rewrite sql_add_integer in Ha by (unfold min_int64; lia).
      injection Ha as <-. left. exists z. repeat split; [lia|lia].
  - rewrite sql_add_two_63 in Ha. injection Ha as <-.
    right. right. exact two_63_stays_real.
Qed.

Lemma perform_step_exact (o : operation) (w : world) (c1 : sqlite_value) :
  stored_table w = Some {[ 1 := c1 ]} → producible c1 →
  ∃ c2, stored_table (after (perform o) w) = Some {[ 1 := c2 ]}
        ∧ match o with
          | Increment =>
              c2 = c1
              ∨ (∃ z, c1 = Integer z ∧ 0 ≤ z < max_int64
                      ∧ c2 = Integer (z + 1))
              ∨ (c1 = Integer max_int64 ∧ c2 = Real two_63)
          | Reset => c2 = c1 ∨ c2 = Integer 0
          end.
Proof.
  intros Ht Hc. unfold after.
  destruct (perform o w) as [r w'] eqn:H. cbn [snd].
  destruct o; cbn [perform] in H.
  - destruct (increment_cases _ _ _ H)
      as [_ [[Hs _]|(t & c0 & c' & Ht0 & Hc0 & Ha & Ht' & _)]].
    + exists c1. rewrite Hs. auto.
    + rewrite Ht in Ht0. injection Ht0 as <-.
      rewrite lookup_singleton_eq in Hc0. injection Hc0 as <-.
      rewrite insert_singleton_eq in Ht'.
      exists (integer_affinity c'). split; [exact Ht'|].
      destruct (producible_increment_exact c1 c' Hc Ha)
        as [(z & -> & Hz & ->)|[[-> ->]| ->]]; eauto 6.
  - destruct (reset_cases _ _ _ H) as [_ [[Hs _]|(_ & t & Ht0 & Ht')]].
    + exists c1. rewrite Hs. auto.
    + rewrite Ht in Ht0. injection Ht0 as <-.
      rewrite lookup_singleton_eq, insert_singleton_eq in Ht'.
      exists (Integer 0). auto.
Qed.

(** C5.  Let initialization succeed on a store without the table, and
    let any sequence [ops] of increments and resets follow, then one
    more operation [o], under any faults.  After the initialization,
    after [ops] and after [o], the table holds exactly one row, of
    identity 1, whose stored count is a non-negative integer: an
    INTEGER between 0 and 2^63 - 1, or the whole number 2^63 that the
    increment of 2^63 - 1 leaves as a REAL.  And [o] changes the stored
    count in no other way than these: an increment leaves it as it was
    or adds exactly 1 to it, a reset leaves it as it was or sets it to
    0; read with [int], the count after is the count before, that count
    plus 1, or 0 accordingly. *)
Theorem counter_invariant_preserved (w0 w : world) (ops : list operation)
    (o : operation) :
  stored_table w0 = None → initialize_database w0 = (Ok tt, w) →
  let w1 := perform_all ops w in
  let w2 := after (perform o) w1 in
  seeded_counter w ∧ seeded_counter w1 ∧ seeded_counter w2
  ∧ (∃ c1 c2, stored_table w1 = Some {[ 1 := c1 ]}
              ∧ stored_table w2 = Some {[ 1 := c2 ]}
              ∧ match o with
                | Increment =>
                    c2 = c1
                    ∨ (∃ z, c1 = Integer z ∧ 0 ≤ z < max_int64
                            ∧ c2 = Integer (z + 1))
                    ∨ (c1 = Integer max_int64 ∧ c2 = Real two_63)
                | Reset => c2 = c1 ∨ c2 = Integer 0
                end)
  ∧ ∃ n n', count_of w1 = Ok n ∧ count_of w2 = Ok n'
            ∧ match o with
              | Increment => n' = n + 1 ∨ n' = n
              | Reset => n' = 0 ∨ n' = n
              end.
Proof.
  intros Ht H. cbn zeta.
  pose proof (initialize_seeded w0 w Ht H) as Hw.
  pose proof (perform_all_seeded ops w Hw) as Hw1.
  destruct (perform_step o _ Hw1) as [Hw2 Hstep].
  destruct Hw1 as (c1 & Ht1 & Hc1).
  destruct (perform_step_exact o _ c1 Ht1 Hc1) as (c2 & Ht2 & Hexact).
  repeat apply conj; auto.
  - exists c1. auto.
  - exists c1, c2. auto.
Qed.

Lemma counter_invariant_preserved_witness :
  seeded_counter
    (perform_all [Increment; Reset; Increment]
       (after initialize_database
          {| disk := empty_database; txn := None;
             faults := [false; false; false; false; false; false;
                        false; false; false; false; true];
             log := [] |})).
Proof.
  refine (proj1 (proj2
    (counter_invariant_preserved
       {| disk := empty_database; txn := None;
          faults := [false; false; false; false; false; false;
                     false; false; false; false; true];
          log := [] |}
       _ [Increment; Reset; Increment] Increment eq_refl _))).
  vm_compute. reflexivity.
Defined.

(** ** The endpoints and the failures of the store *)

(** C6.  In every world, GET /api/visitors returns (it never raises):
    the body count N with status 200 when [increment_and_get_count]
    returns N, and the fixed error body with status 500 when it raises,
    the exception going to the log only.  POST /api/reset returns: the
    body count 0 with status 200 when [reset_count] returns, and its
    fixed error body with status 500 when it raises. *)
Theorem endpoints_catch_store_errors (w : world) :
  match increment_and_get_count w with
  | (Ok n, w') => get_visitors w = (Ok ([("count", JInt n)], 200), w')
  | (Raise e, w') =>
      get_visitors w =
        (Ok ([("error", JStr "Unable to read visitor count")], 500),
         add_log {| levelname := ERROR;
                    message := "Failed to increment visitor count";
                    exc_info := Some e |} w')
  end
  ∧ match reset_count w with
    | (Ok n, w') =>
        n = 0
        ∧ reset_visitors w =
            (Ok ([("count", JInt 0)], 200),
             add_log {| levelname := WARNING;
                        message := "Visitor counter reset by request";
                        exc_info := None |} w')
    | (Raise e, w') =>
        reset_visitors w =
          (Ok ([("error", JStr "Unable to reset visitor count")], 500),
           add_log {| levelname := ERROR;
                      message := "Failed to reset visitor count";
                      exc_info := Some e |} w')
    end.
Proof.
  split.
  - rewrite get_visitors_of_increment.
    destruct (increment_and_get_count w) as [[n|e] w']; reflexivity.
  - rewrite reset_visitors_of_reset.
    destruct (reset_count w) as [[n|e] w'] eqn:H; [|reflexivity].
    pose proof (reset_returns_zero _ _ _ H) as ->. split; reflexivity.
Qed.

(** C7, at the input where the code departs from it.  The counter holds
    0 and the fifth call into SQLite, the SELECT that reads the count
    back, fails: [increment_and_get_count] raises and GET /api/visitors
    answers status 500, yet the stored count is 1, the UPDATE having
    been committed before the read. *)
Theorem increment_failure_after_commit :
  let w := {| disk := wal_file {[ 1 := Integer 0 ]}; txn := None;
              faults := [false; false; false; false; true]; log := [] |} in
  stored_table w = Some {[ 1 := Integer 0 ]}
  ∧ returned increment_and_get_count w = Raise OperationalError
  ∧ stored_table (after increment_and_get_count w) = Some {[ 1 := Integer 1 ]}
  ∧ returned get_visitors w
      = Ok ([("error", JStr "Unable to read visitor count")], 500)
  ∧ stored_table (after get_visitors w) = Some {[ 1 := Integer 1 ]}.
Proof. vm_compute. repeat split; reflexivity. Qed.

(** What does hold of C7: a reset that raises leaves the table as it
    was. *)
Lemma reset_failure_leaves_table (w : world) (e : exn) :
  returned reset_count w = Raise e →
  stored_table (after reset_count w) = stored_table w.
Proof.
  unfold returned, after. destruct (reset_count w) as [r w'] eqn:H. cbn.
  intros ->. destruct (reset_cases _ _ _ H) as [_ [[Hs _]|[Hr _]]];
    [exact Hs|discriminate].
Qed.

(** And an increment that raises leaves the table as it was or with the
    increment committed, never anything else. *)
Lemma increment_failure_table (w : world) (e : exn) :
  returned increment_and_get_count w = Raise e →
  stored_table (after increment_and_get_count w) = stored_table w
  ∨ ∃ t c c', stored_table w = Some t ∧ t !! 1 = Some c
      ∧ sql_add c (Integer 1) = Some c'
      ∧ stored_table (after increment_and_get_count w)
          = Some (<[1 := integer_affinity c']> t).
Proof.
  unfold returned, after.
  destruct (increment_and_get_count w) as [r w'] eqn:H. cbn. intros ->.
  destruct (increment_cases _ _ _ H)
    as [_ [[Hs _]|(t & c & c' & Ht & Hc & Ha & Ht' & _)]]; [left; exact Hs|].
  right. exists t, c, c'. auto.
Qed.

(** ** The table without its row *)

Lemma increment_without_row_exn (w : world) t r w' :
  stored_table w = Some t → t !! 1 = None →
  increment_and_get_count w = (r, w') →
  r = Raise (if existsb id (take 5 (faults w))
             then OperationalError else TypeError).
Proof.
  unfold stored_table.
  destruct w as [[j v] x fs l]. cbn. intros -> Hrow H.
  unfold_app H; crunch H.
  all: injection H as <- <-; reflexivity.
Qed.

(** C8.  When the table exists and the counter row does not, under any
    faults: [increment_and_get_count] raises, with [TypeError] from the
    read of the missing row unless one of its five calls into SQLite
    failed before; GET /api/visitors answers status 500 with the fixed
    error body; and the table is left as it was, the row still
    missing. *)
Theorem increment_without_row_raises (w : world) (t : gmap Z sqlite_value) :
  stored_table w = Some t → t !! 1 = None →
  returned increment_and_get_count w
    = Raise (if existsb id (take 5 (faults w))
             then OperationalError else TypeError)
  ∧ stored_table (after increment_and_get_count w) = Some t
  ∧ returned get_visitors w
      = Ok ([("error", JStr "Unable to read visitor count")], 500)
  ∧ stored_table (after get_visitors w) = Some t.
Proof.
  intros Ht Hrow. unfold returned, after.
  rewrite get_visitors_of_increment.
  destruct (increment_and_get_count w) as [r w'] eqn:H.
  pose proof (increment_without_row_exn w t r w' Ht Hrow H) as ->.
  destruct (increment_cases _ _ _ H)
    as [_ [[Hs _]|(t0 & c & c' & Ht0 & Hc & _)]].
  - unfold stored_table in *. cbn. rewrite Hs, Ht. repeat split; reflexivity.
  - congruence.
Qed.

Lemma increment_without_row_raises_witness :
  returned increment_and_get_count (at_rest (wal_file ∅) [])
  = Raise TypeError.
Proof.
  exact (proj1
    (increment_without_row_raises (at_rest (wal_file ∅) []) ∅
       eq_refl eq_refl)).
Defined.

(** C9.  When the table exists and the counter row does not, and no
    fault occurs, [reset_count] returns 0 and POST /api/reset answers
    status 200 with body count 0, while the table is left as it was:
    no row is written. *)
Theorem reset_without_row_returns_zero (w : world) (t : gmap Z sqlite_value) :
  faults w = [] → stored_table w = Some t → t !! 1 = None →
  returned reset_count w = Ok 0
  ∧ stored_table (after reset_count w) = Some t
  ∧ returned reset_visitors w = Ok ([("count", JInt 0)], 200)
  ∧ stored_table (after reset_visitors w) = Some t
  ∧ stored_count (after reset_visitors w) = None.
Proof.
  intros Hf Ht Hrow. unfold returned, after, stored_count.
  rewrite reset_visitors_of_reset, (reset_no_fault w t Hf Ht), Hrow. cbn.
  rewrite Hrow. repeat split; reflexivity.
Qed.

Lemma reset_without_row_returns_zero_witness :
  returned reset_visitors (at_rest (wal_file ∅) [])
  = Ok ([("count", JInt 0)], 200).
Proof.
  exact (proj1 (proj2 (proj2
    (reset_without_row_returns_zero (at_rest (wal_file ∅) []) ∅
       eq_refl eq_refl eq_refl)))).
Defined.

(** ** The dashboard *)

(** C10.  For every page text and every world, GET / returns status
    200, the page text as body and the header Content-Type
    [text/html; charset=utf-8], and leaves the world as it was; the
    response is the same in any two worlds, so it reads nothing of the
    counter. *)
Theorem home_read_only (HOME_TEMPLATE : string) (w w' : world) :
  home HOME_TEMPLATE w =
    (Ok {| status_code := 200;
           headers := {[ "Content-Type" := "text/html; charset=utf-8" ]};
           data := HOME_TEMPLATE |}, w)
  ∧ returned (home HOME_TEMPLATE) w = returned (home HOME_TEMPLATE) w'.
Proof.
  unfold home, returned, set_header, make_response, mret, M_ret. cbn.
  rewrite insert_singleton_eq. split; reflexivity.
Qed.

(** ** Several requests at once *)

Lemma count_if_insert p (l : list request) i r r' :
  l !! i = Some r →
  (count_if p (<[i := r']> l) + (if p r then 1 else 0)
   = count_if p l + (if p r' then 1 else 0))%nat.
Proof.
  revert i. induction l as [|x l IH]; intros [|i] H; try discriminate.
  - injection H as ->.
    change (<[0%nat := r']> (r :: l)) with (r' :: l). cbn [count_if].
    destruct (p r), (p r'); lia.
  - change (<[S i := r']> (x :: l)) with (x :: <[i := r']> l). cbn [count_if].
    specialize (IH i H). revert IH. destruct (p x), (p r), (p r'); lia.
Qed.

Lemma count_if_lt p (l : list request) i r :
  l !! i = Some r → p r = false → (count_if p l < length l)%nat.
Proof.
  revert i. induction l as [|x l IH]; intros [|i] H Hp; try discriminate.
  - injection H as ->. cbn. rewrite Hp.
    assert (count_if p l ≤ length l)%nat; [|lia].
    clear. induction l as [|y l IH]; cbn; [lia|]. destruct (p y); lia.
  - cbn in *. specialize (IH i H Hp). destruct (p x); lia.
Qed.

Lemma count_if_zero p (l : list request) i r :
  count_if p l = 0%nat → l !! i = Some r → p r = false.
Proof.
  revert i. induction l as [|x l IH]; intros [|i] H0 H; try discriminate.
  - injection H as ->. cbn in H0. destruct (p r); [discriminate|reflexivity].
  - cbn in *. apply (IH i); [destruct (p x); [discriminate|exact H0]|exact H].
Qed.

Lemma existsb_count_if p (l : list request) :
  existsb p l = false → count_if p l = 0%nat.
Proof.
  induction l as [|x l IH]; cbn; [reflexivity|].
  destruct (p x); cbn; [discriminate|exact IH].
Qed.

Lemma update_counter_file (z : Z) :
  min_int64 ≤ z < max_int64 →
  exec_sql UpdateIncrement (counter_file (Integer z))
  = Ok ({| journal_wal := true;
           visitors := Some {[ 1 := Integer (z + 1) ]} |}, None).
Proof.
  intros Hz. unfold exec_sql, update_row1, counter_file. cbn [visitors].
  rewrite lookup_singleton_eq, (sql_add_integer z Hz).
  unfold set_visitors. cbn. rewrite insert_singleton_eq. reflexivity.
Qed.

Lemma lookup_set (l : list request) i j r y :
  <[i := r]> l !! j = Some y → (j = i ∧ y = r) ∨ (j ≠ i ∧ l !! j = Some y).
Proof.
  intros H. apply list_lookup_insert_Some in H.
  destruct H as [(-> & -> & _)|[Hne H]]; [left|right]; auto.
Qed.

Lemma step_coherent v n i s s' :
  min_int64 ≤ v → v + Z.of_nat n ≤ max_int64 →
  coherent v n s → step i s = Some s' → coherent v n s'.
Proof.
  intros Hv Hn (Hlen & Hfile & Hlock & Hview & Hresp) Hstep.
  unfold step in Hstep.
  destruct (requests s !! i) as [r|] eqn:Hi; [|discriminate].
  pose proof (count_if_insert has_committed (requests s) i r) as Hk.
  pose proof (count_if_insert holds_write_lock (requests s) i r) as Hl.
  set (k := count_if has_committed (requests s)) in *.
  destruct r as [| |view| |resp].
  - (* PRAGMA *)
    rewrite Hfile in Hstep. cbn in Hstep. injection Hstep as <-.
    specialize (Hk Connected Hi). specialize (Hl Connected Hi). cbn in Hk, Hl.
    unfold coherent. cbn [requests file set_request set_file].
    replace (count_if has_committed (<[i:=Connected]> (requests s))) with k by lia.
    repeat apply conj.
    + rewrite length_insert. exact Hlen.
    + reflexivity.
    + lia.
    + intros j view Hj. apply lookup_set in Hj.
      destruct Hj as [[_ Hj]|[_ Hj]]; [discriminate|eauto].
    + intros j resp Hj. apply lookup_set in Hj.
      destruct Hj as [[_ Hj]|[_ Hj]]; [discriminate|eauto].
  - (* UPDATE *)
    destruct (existsb holds_write_lock (requests s)) eqn:He; [discriminate|].
    apply existsb_count_if in He.
    pose proof (count_if_lt has_committed _ _ _ Hi eq_refl) as Hlt.
    fold k in Hlt. rewrite Hlen in Hlt.
    rewrite Hfile, update_counter_file in Hstep by lia.
    injection Hstep as <-.
    specialize (Hk (Updated (Some {[1 := Integer (v + Z.of_nat k + 1)]})) Hi).
    specialize (Hl (Updated (Some {[1 := Integer (v + Z.of_nat k + 1)]})) Hi).
    cbn in Hk, Hl.
    unfold coherent. cbn [requests file set_request set_file visitors].
    replace (count_if has_committed (<[i:=_]> (requests s))) with k by lia.
    repeat apply conj.
    + rewrite length_insert. exact Hlen.
    + exact Hfile.
    + lia.
    + intros j view Hj. apply lookup_set in Hj.
      destruct Hj as [[_ Hj]|[_ Hj]]; [congruence|].
      pose proof (count_if_zero _ _ _ _ He Hj). discriminate.
    + intros j resp Hj. apply lookup_set in Hj.
      destruct Hj as [[_ Hj]|[_ Hj]]; [discriminate|eauto].
  - (* commit *)
    injection Hstep as <-.
    pose proof (Hview i view Hi) as ->.
    specialize (Hk Committed Hi). specialize (Hl Committed Hi). cbn in Hk, Hl.
    unfold coherent. cbn [requests file set_request set_file].
    replace (count_if has_committed (<[i:=Committed]> (requests s)))
      with (S k) by lia.
    assert (Hl0 : count_if holds_write_lock (<[i:=Committed]> (requests s)) = 0%nat)
      by lia.
    repeat apply conj.
    + rewrite length_insert. exact Hlen.
    + replace (v + Z.of_nat (S k)) with (v + Z.of_nat k + 1) by lia.
      rewrite Hfile. reflexivity.
    + lia.
    + intros j view Hj.
      pose proof (count_if_zero _ _ _ _ Hl0 Hj). discriminate.
    + intros j resp Hj. apply lookup_set in Hj.
      destruct Hj as [[_ Hj]|[_ Hj]]; [discriminate|].
      destruct (Hresp j resp Hj) as (c & -> & Hc). exists c. split; [reflexivity|lia].
  - (* SELECT *)
    rewrite Hfile in Hstep. cbn in Hstep. rewrite lookup_singleton_eq in Hstep.
    injection Hstep as <-.
    specialize (Hk (Responded (visitors_response (Ok (v + Z.of_nat k)))) Hi).
    specialize (Hl (Responded (visitors_response (Ok (v + Z.of_nat k)))) Hi).
    pose proof (count_if_insert has_committed (requests s) i _ Received Hi) as Hk1.
    cbn in Hk, Hl, Hk1. fold k in Hk1.
    unfold coherent. cbn [requests file set_request set_file].
    replace (count_if has_committed (<[i:=_]> (requests s))) with k by lia.
    repeat apply conj.
    + rewrite length_insert. exact Hlen.
    + exact Hfile.
    + lia.
    + intros j view Hj. apply lookup_set in Hj.
      destruct Hj as [[_ Hj]|[_ Hj]]; [discriminate|eauto].
    + intros j resp Hj. apply lookup_set in Hj.
      destruct Hj as [[_ Hj]|[_ Hj]]; [|eauto].
      injection Hj as ->. exists (v + Z.of_nat k). split; [reflexivity|lia].
  - discriminate.
Qed.

Lemma count_if_replicate p n r :
  p r = false → count_if p (replicate n r) = 0%nat.
Proof. intros Hp. induction n as [|n IH]; cbn; [reflexivity|]. rewrite Hp. exact IH. Qed.

Lemma arrivals_coherent v n : coherent v n (arrivals v n).
Proof.
  unfold coherent, arrivals. cbn [requests file].
  rewrite !count_if_replicate by reflexivity.
  repeat apply conj.
  - apply length_replicate.
  - do 2 f_equal. lia.
  - lia.
  - intros i view Hi. apply lookup_replicate in Hi. destruct Hi; discriminate.
  - intros i r Hi. apply lookup_replicate in Hi. destruct Hi; discriminate.
Qed.

Lemma run_coherent v n schedule s s' :
  min_int64 ≤ v → v + Z.of_nat n ≤ max_int64 →
  coherent v n s → run schedule s = Some s' → coherent v n s'.
Proof.
  intros Hv Hn. revert s. induction schedule as [|i rest IH]; intros s Hs H.
  - injection H as <-. exact Hs.
  - cbn in H. destruct (step i s) as [s1|] eqn:H1; [|discriminate].
    apply (IH s1); [|exact H]. exact (step_coherent v n i s s1 Hv Hn Hs H1).
Qed.

Lemma count_if_responded (l : list request) :
  forallb has_responded l = true → count_if has_committed l = length l.
Proof.
  induction l as [|r l IH]; cbn; [reflexivity|].
  destruct r; cbn; try discriminate. intros H. rewrite (IH H). reflexivity.
Qed.

(** Whatever the interleaving, once every request has responded no
    update is lost: the file holds [v + n], and every answer is a count
    between [v + 1] and [v + n] with status 200. *)
Theorem no_lost_update (v : Z) (n : nat) (schedule : list nat) (s : system) :
  min_int64 ≤ v → v + Z.of_nat n ≤ max_int64 →
  run schedule (arrivals v n) = Some s → all_responded s = true →
  file s = counter_file (Integer (v + Z.of_nat n))
  ∧ ∀ i r, requests s !! i = Some r →
      ∃ c, r = Responded (visitors_response (Ok c))
           ∧ v + 1 ≤ c ≤ v + Z.of_nat n.
Proof.
  intros Hv Hn Hrun Hall.
  destruct (run_coherent v n schedule _ s Hv Hn (arrivals_coherent v n) Hrun)
    as (Hlen & Hfile & _ & _ & Hresp).
  unfold all_responded in Hall.
  rewrite (count_if_responded _ Hall), Hlen in Hfile, Hresp.
  split; [exact Hfile|].
  intros i r Hi.
  assert (Hr : has_responded r = true).
  { rewrite forallb_forall in Hall. apply Hall.
    apply list_elem_of_In. eapply list_elem_of_lookup_2. exact Hi. }
  destruct r as [| | | |resp]; try discriminate.
  destruct (Hresp i resp Hi) as (c & -> & Hc). exists c. auto.
Qed.

Lemma lookup_middle (pre post : list request) r :
  (pre ++ r :: post) !! length pre = Some r.
Proof. induction pre as [|x pre IH]; [reflexivity|exact IH]. Qed.

Lemma set_middle (pre post : list request) r r' f :
  set_request (length pre) r' {| file := f; requests := pre ++ r :: post |}
  = {| file := f; requests := pre ++ r' :: post |}.
Proof.
  unfold set_request. cbn [file requests]. f_equal.
  induction pre as [|x pre IH]; [reflexivity|].
  cbn [length app]. change (<[S (length pre) := r']> (x :: pre ++ r :: post))
    with (x :: <[length pre := r']> (pre ++ r :: post)).
  rewrite IH. reflexivity.
Qed.

Lemma run_app (a b : list nat) (s : system) :
  run (a ++ b) s = match run a s with Some s' => run b s' | None => None end.
Proof.
  revert s. induction a as [|i a IH]; intros s; [reflexivity|].
  cbn. destruct (step i s); [apply IH|reflexivity].
Qed.

Lemma request_alone (pre post : list request) (z : Z) :
  min_int64 ≤ z < max_int64 →
  existsb holds_write_lock pre = false →
  existsb holds_write_lock post = false →
  run [length pre; length pre; length pre; length pre]
    {| file := counter_file (Integer z); requests := pre ++ Received :: post |}
  = Some {| file := counter_file (Integer (z + 1));
            requests := pre ++ Responded (visitors_response (Ok (z + 1))) :: post |}.
Proof.
  intros Hz Hpre Hpost. cbn [run].
  unfold step at 1. cbn [requests file]. rewrite lookup_middle.
  cbn [exec_sql]. unfold set_file. cbn [requests file]. rewrite set_middle.
  unfold step at 1. cbn [requests file]. rewrite lookup_middle.
  rewrite existsb_app. cbn [existsb holds_write_lock]. rewrite Hpre, Hpost.
  cbn [orb]. change {| journal_wal := true;
                       visitors := visitors (counter_file (Integer z)) |}
    with (counter_file (Integer z)).
  rewrite (update_counter_file z Hz). cbn [visitors]. rewrite set_middle.
  unfold step at 1. cbn [requests file]. rewrite lookup_middle.
  unfold set_file. cbn [requests file journal_wal counter_file].
  rewrite set_middle.
  unfold step at 1. cbn [requests file]. rewrite lookup_middle.
  cbn [exec_sql visitors]. rewrite lookup_singleton_eq. rewrite set_middle.
  reflexivity.
Qed.

Lemma answers_S (v : Z) (j : nat) :
  answers v (S j)
  = answers v j ++ [Responded (visitors_response (Ok (v + Z.of_nat j + 1)))].
Proof.
  unfold answers. rewrite seq_S, map_app. cbn [map Nat.add]. do 5 f_equal. lia.
Qed.

Lemma answers_no_lock (v : Z) (j : nat) :
  existsb holds_write_lock (answers v j) = false.
Proof.
  unfold answers. induction (seq 0 j) as [|i l IH]; [reflexivity|exact IH].
Qed.

Lemma serial_from (v : Z) (m j : nat) :
  min_int64 ≤ v → v + Z.of_nat (j + m) ≤ max_int64 →
  run (flat_map (fun i => [i; i; i; i]) (seq j m))
    {| file := counter_file (Integer (v + Z.of_nat j));
       requests := answers v j ++ replicate m Received |}
  = Some {| file := counter_file (Integer (v + Z.of_nat (j + m)));
            requests := answers v (j + m) |}.
Proof.
  intros Hv. revert j. induction m as [|m IH]; intros j Hm.
  - cbn. rewrite Nat.add_0_r, app_nil_r. reflexivity.
  - cbn [seq flat_map replicate]. rewrite run_app.
    assert (Hlen : length (answers v j) = j).
    { unfold answers. rewrite length_map. apply length_seq. }
    rewrite <- Hlen at 1 2 3 4.
    rewrite request_alone;
      [|lia|apply answers_no_lock
       |clear; induction m as [|m IH]; [reflexivity|exact IH]].
    replace (v + Z.of_nat j + 1) with (v + Z.of_nat (S j)) by lia.
    replace (answers v j ++
             Responded (visitors_response (Ok (v + Z.of_nat (S j)))) ::
             replicate m Received)
      with (answers v (S j) ++ replicate m Received).
    + rewrite IH by lia. do 3 f_equal; [do 3 f_equal|]; lia.
    + rewrite answers_S, <- app_assoc. cbn [app]. do 5 f_equal. lia.
Qed.

(** Served one after the other, the [n] requests get the counts
    [v + 1], ..., [v + n], each once. *)
Theorem serial_schedule_answers (v : Z) (n : nat) :
  min_int64 ≤ v → v + Z.of_nat n ≤ max_int64 →
  run (serial n) (arrivals v n)
  = Some {| file := counter_file (Integer (v + Z.of_nat n));
            requests := answers v n |}.
Proof.
  intros Hv Hn. unfold serial, arrivals.
  pose proof (serial_from v n 0 Hv Hn) as H. cbn [Nat.add answers seq map app] in H.
  replace (v + Z.of_nat 0) with v in H by lia. exact H.
Qed.

(** A request served alone goes through [get_visitors] as the
    sequential model has it. *)
Lemma single_request_agrees (d : database) t c c' (l : list log_record) :
  visitors d = Some t → t !! 1 = Some c → sql_add c (Integer 1) = Some c' →
  ∃ r, returned get_visitors (at_rest d l) = Ok r
       ∧ run [0; 0; 0; 0]%nat {| file := d; requests := [Received] |}
         = Some {| file := disk (after get_visitors (at_rest d l));
                   requests := [Responded r] |}.
Proof.
  intros Ht Hc Ha.
  exists (visitors_response (int_of_row (Some (integer_affinity c')))).
  unfold returned, after. rewrite get_visitors_of_increment.
  rewrite (increment_no_fault (at_rest d l) t c c' eq_refl Ht Hc Ha).
  split.
  - destruct (int_of_row (Some (integer_affinity c'))); reflexivity.
  - cbn [run]. unfold step at 1. cbn.
    unfold update_row1. cbn. rewrite Ht, Hc, Ha. cbn.
    rewrite lookup_insert_eq.
    destruct (int_of_row (Some (integer_affinity c'))); reflexivity.
Qed.

(** C1, at the input where the code departs from it.  Two requests
    arrive while the counter holds 0; both commit their UPDATE before
    either reads the count back.  No update is lost, the file holds 2,
    but both requests answer count 2: the value 1 is returned to no one
    and the value 2 twice. *)
Theorem concurrent_requests_duplicate :
  run [0; 0; 0; 1; 1; 1; 0; 1]%nat (arrivals 0 2)
  = Some {| file := counter_file (Integer 2);
            requests := [Responded ([("count", JInt 2)], 200);
                         Responded ([("count", JInt 2)], 200)] |}.
Proof. vm_compute. reflexivity. Qed.

(** ** Further properties of the store *)

(** Opening a connection, under any faults, leaves the table and the
    log as they were; when it returns, the file is in WAL mode and the
    connection has no transaction open; when it raises, the exception is
    the storage's [OperationalError]. *)
Theorem get_db_connection_keeps_table (w : world) :
  stored_table (after get_db_connection w) = stored_table w
  ∧ log (after get_db_connection w) = log w
  ∧ match returned get_db_connection w with
    | Ok _ =>
        journal_wal (disk (after get_db_connection w)) = true
        ∧ txn (after get_db_connection w) = None
    | Raise e => e = OperationalError
    end.
Proof.
  unfold returned, after, stored_table.
  destruct (get_db_connection w) as [r w'] eqn:H.
  destruct w as [[j v] x fs l]. unfold_app H; crunch H.
  all: injection H as <- <-; cbn; auto.
Qed.

(** Under any faults, [initialize_database] writes its log record
    exactly when it seeds the row: either it returns, the log has grown
    by the one INFO record, the row was missing and now holds 0; or the
    log is as before and so is the counter row (present and untouched,
    or still missing). *)
Theorem initialize_logs_when_it_seeds (w : world) :
  (returned initialize_database w = Ok tt
   ∧ log (after initialize_database w) = log w ++ [seeded_record]
   ∧ stored_count w = None
   ∧ stored_count (after initialize_database w) = Some (Integer 0))
  ∨ (log (after initialize_database w) = log w
     ∧ stored_count (after initialize_database w) = stored_count w).
Proof.
  unfold returned, after, stored_count.
  destruct (initialize_database w) as [r w'] eqn:H.
  destruct w as [[j [t|]] x fs l]; unfold_app H; crunch H.
  all: injection H as <- <-; cbn; rewrite ?Hrow, ?lookup_insert_eq, ?lookup_empty.
  all: try (right; split; reflexivity).
  all: left; repeat split; reflexivity.
Qed.

(** An initialization that raised on a store without the table, at
    whatever call, is repaired by the next one: run with no fault on the
    world the failure left, [initialize_database] returns and the table
    holds exactly the row (1, 0). *)
Theorem initialize_recovers (w w1 : world) (e : exn) :
  stored_table w = None → initialize_database w = (Raise e, w1) →
  faults w1 = [] →
  returned initialize_database w1 = Ok tt
  ∧ stored_table (after initialize_database w1) = Some {[ 1 := Integer 0 ]}.
Proof.
  intros Ht H Hf. pose proof (initialize_cases _ _ _ H) as Hi. cbn in Hi.
  rewrite Ht in Hi. unfold returned, after.
  destruct Hi as [Hi|[_ Hi]].
  - rewrite (initialize_seeds w1 Hf Hi). split; reflexivity.
  - rewrite (initialize_seeds_row w1 ∅ Hf Hi (lookup_empty _)).
    rewrite insert_empty. split; reflexivity.
Qed.

Lemma initialize_recovers_witness :
  stored_table
    (after initialize_database
       (after initialize_database
          {| disk := empty_database; txn := None;
             faults := [false; false; false; false; true]; log := [] |}))
  = Some {[ 1 := Integer 0 ]}.
Proof.
  refine (proj2
    (initialize_recovers
       {| disk := empty_database; txn := None;
          faults := [false; false; false; false; true]; log := [] |}
       _ OperationalError eq_refl _ _)).
  - vm_compute. reflexivity.
  - vm_compute. reflexivity.
Defined.

#[local] Arguments sql_add : simpl never.

(** The outcome of an increment, from the faults alone.  With the
    counter row at a 64-bit integer [z] below the maximum,
    [increment_and_get_count] returns [z + 1] when none of its five
    calls into SQLite fails and raises [OperationalError] otherwise; the
    stored count becomes [z + 1] when none of the first four fails (the
    commit is the fourth) and the table is untouched otherwise. *)
Theorem increment_outcome_by_faults (w : world) (t : gmap Z sqlite_value) (z : Z) :
  stored_table w = Some t → t !! 1 = Some (Integer z) →
  min_int64 ≤ z < max_int64 →
  returned increment_and_get_count w
    = (if existsb id (take 5 (faults w))
       then Raise OperationalError else Ok (z + 1))
  ∧ stored_table (after increment_and_get_count w)
    = Some (if existsb id (take 4 (faults w))
            then t else <[1 := Integer (z + 1)]> t).
Proof.
  intros Ht Hc Hz. pose proof (sql_add_integer z Hz) as Ha.
  unfold returned, after, stored_table in *.
  destruct (increment_and_get_count w) as [r w'] eqn:H.
  destruct w as [[j v] x fs l]. cbn in Ht. subst v.
  unfold_app H; crunch H.
  all: injection H as <- <-; cbn; rewrite ?take_0; cbn; split; try reflexivity.
  all: unfold int_of_row in Hint; cbn in Hint; congruence.
Qed.

(** Without faults the store is an exact counter: from the single row
    at [z], a sequence of increments and resets that stays within 64
    bits leaves the single row at the count an abstract counter
    computes, one more for each increment and 0 at each reset. *)
Theorem operations_tally (ops : list operation) (w : world) (z : Z) :
  faults w = [] → stored_table w = Some {[ 1 := Integer z ]} →
  0 ≤ z → z + Z.of_nat (length ops) ≤ max_int64 →
  stored_table (perform_all ops w) = Some {[ 1 := Integer (tally ops z) ]}
  ∧ count_of (perform_all ops w) = Ok (tally ops z).
Proof.
  revert w z. induction ops as [|o ops IH]; intros w z Hf Ht Hz Hn.
  - cbn. split; [exact Ht|]. rewrite (count_of_single w _ Ht). reflexivity.
  - cbn [perform_all fold_left tally length] in *.
    change (fold_left (λ w o, after (perform o) w) ops) with (perform_all ops).
    change (fold_left (λ c o, match o with Increment => c + 1 | Reset => 0 end) ops)
      with (tally ops).
    destruct o; unfold after; cbn [perform].
    + rewrite (increment_no_fault w _ (Integer z) (Integer (z + 1)) Hf Ht
                 (lookup_singleton_eq _ _))
        by (apply sql_add_integer; unfold min_int64; lia).
      cbn [snd integer_affinity]. rewrite insert_singleton_eq.
      apply IH; [reflexivity|reflexivity|lia|lia].
    + rewrite (reset_no_fault w _ Hf Ht), lookup_singleton_eq.
      cbn [snd]. rewrite insert_singleton_eq.
      apply IH; [reflexivity|reflexivity|lia|lia].
Qed.

Lemma operations_tally_witness :
  count_of
    (perform_all [Increment; Increment; Reset; Increment]
       (at_rest (wal_file {[ 1 := Integer 9 ]}) []))
  = Ok 1.
Proof.
  assert (H0 : 0 ≤ 9) by lia.
  assert (Hn : 9 + Z.of_nat (length [Increment; Increment; Reset; Increment])
               ≤ max_int64) by (unfold max_int64; cbn; lia).
  exact (proj2
    (operations_tally [Increment; Increment; Reset; Increment]
       (at_rest (wal_file {[ 1 := Integer 9 ]}) []) 9 eq_refl eq_refl H0 Hn)).
Defined.

(** Under any faults, [k] increments in a row never lower the count
    and never raise it by more than [k]. *)
Theorem increments_never_decrease (k : nat) (w : world) :
  seeded_counter w →
  ∃ n n', count_of w = Ok n
          ∧ count_of (perform_all (replicate k Increment) w) = Ok n'
          ∧ n ≤ n' ≤ n + Z.of_nat k.
Proof.
  revert w. induction k as [|k IH]; intros w Hw.
  - destruct Hw as (c & Ht & Hc). destruct (producible_reads c Hc) as (n & Hn & _).
    exists n, n. cbn. rewrite (count_of_single w c Ht). repeat split; auto; lia.
  - destruct (perform_step Increment w Hw) as (Hw1 & n & n1 & Hn & Hn1 & Hstep).
    destruct (IH _ Hw1) as (m & n' & Hm & Hn' & Hle).
    exists n, n'. cbn [replicate perform_all fold_left].
    change (fold_left (λ w o, after (perform o) w) (replicate k Increment))
      with (perform_all (replicate k Increment)).
    assert (m = n1) by congruence. subst m.
    repeat split; auto; lia.
Qed.

Lemma increments_never_decrease_witness :
  ∃ n n',
    count_of {| disk := wal_file {[ 1 := Integer 3 ]}; txn := None;
                faults := [false; false; true]; log := [] |} = Ok n
    ∧ count_of
        (perform_all (replicate 2 Increment)
           {| disk := wal_file {[ 1 := Integer 3 ]}; txn := None;
              faults := [false; false; true]; log := [] |}) = Ok n'
    ∧ n ≤ n' ≤ n + Z.of_nat 2.
Proof.
  apply (increments_never_decrease 2).
  exists (Integer 3). split; [reflexivity|].
  left. exists 3. split; [reflexivity|unfold max_int64; lia].
Defined.

(** Once the stored count is the REAL 2^63, which the increment of
    2^63 - 1 produces, increments no longer change it, under any faults:
    the row stays at 2^63 and reads 2^63. *)
Theorem count_saturates_at_two_63 (k : nat) (w : world) :
  stored_table w = Some {[ 1 := Real two_63 ]} →
  stored_table (perform_all (replicate k Increment) w)
    = Some {[ 1 := Real two_63 ]}
  ∧ count_of (perform_all (replicate k Increment) w) = Ok (2 ^ 63).
Proof.
  revert w. induction k as [|k IH]; intros w Ht.
  - cbn. split; [exact Ht|].
    rewrite (count_of_single w _ Ht). exact py_int_two_63.
  - cbn [replicate perform_all fold_left].
    change (fold_left (λ w o, after (perform o) w) (replicate k Increment))
      with (perform_all (replicate k Increment)).
    apply IH. unfold after. cbn [perform].
    destruct (increment_and_get_count w) as [r w'] eqn:H. cbn [snd].
    destruct (increment_cases _ _ _ H)
      as [_ [[Hs _]|(t & c & c' & Ht0 & Hc & Ha & Ht' & _)]].
    + rewrite Hs. exact Ht.
    + rewrite Ht in Ht0. injection Ht0 as <-.
      rewrite lookup_singleton_eq in Hc. injection Hc as <-.
      rewrite sql_add_two_63 in Ha. injection Ha as <-.
      rewrite two_63_stays_real, insert_singleton_eq in Ht'. exact Ht'.
Qed.

Lemma count_saturates_at_two_63_witness :
  count_of
    (perform_all (replicate 3 Increment)
       (after increment_and_get_count
          (at_rest (wal_file {[ 1 := Integer max_int64 ]}) [])))
  = Ok (2 ^ 63).
Proof.
  refine (proj2 (count_saturates_at_two_63 3 _ _)).
  vm_compute. reflexivity.
Defined.

Lemma lock_holder (l : list request) :
  existsb holds_write_lock l = true →
  ∃ i view, l !! i = Some (Updated view).
Proof.
  induction l as [|r l IH]; cbn; [discriminate|].
  destruct r as [| |view| |resp]; cbn.
  3: { intros _. exists 0%nat, view. reflexivity. }
  all: intros H; destruct (IH H) as (i & view & Hi); exists (S i), view; exact Hi.
Qed.

Lemma pending_request (l : list request) :
  forallb has_responded l = false →
  ∃ i r, l !! i = Some r ∧ has_responded r = false.
Proof.
  induction l as [|r l IH]; cbn; [discriminate|].
  destruct (has_responded r) eqn:Hr; cbn.
  - intros H. destruct (IH H) as (i & r' & Hi & Hr'). exists (S i), r'. auto.
  - intros _. exists 0%nat, r. auto.
Qed.

(** No deadlock: in every system where some request has not responded
    yet, some request can take a step. *)
Theorem some_request_can_step (s : system) :
  all_responded s = false → ∃ i s', step i s = Some s'.
Proof.
  intros Hall. destruct (existsb holds_write_lock (requests s)) eqn:Hlock.
  - destruct (lock_holder _ Hlock) as (i & view & Hi).
    exists i. unfold step. rewrite Hi. eexists. reflexivity.
  - destruct (pending_request _ Hall) as (i & r & Hi & Hr).
    exists i. unfold step. rewrite Hi, ?Hlock.
    destruct r as [| |view| |resp]; try discriminate.
    + cbn. eexists. reflexivity.
    + destruct (exec_sql UpdateIncrement (file s)) as [[d o]|e];
        eexists; reflexivity.
    + eexists. reflexivity.
    + destruct (exec_sql SelectCount (file s)) as [[d o]|e];
        eexists; reflexivity.
Qed.

Lemma some_request_can_step_witness :
  ∃ i s', step i {| file := counter_file (Integer 0);
                    requests := [Updated (Some {[ 1 := Integer 1 ]});
                                 Connected] |} = Some s'.
Proof.
  apply some_request_can_step. reflexivity.
Defined.

Lemma reset_failure_leaves_table_witness :
  stored_table
    (after reset_count
       {| disk := wal_file {[ 1 := Integer 7 ]}; txn := None;
          faults := [false; false; false; true]; log := [] |})
  = Some {[ 1 := Integer 7 ]}.
Proof.
  refine (reset_failure_leaves_table
    {| disk := wal_file {[ 1 := Integer 7 ]}; txn := None;
       faults := [false; false; false; true]; log := [] |}
    OperationalError _).
  vm_compute. reflexivity.
Defined.

Lemma no_lost_update_witness :
  file {| file := counter_file (Integer 2);
          requests := [Responded ([("count", JInt 2)], 200);
                       Responded ([("count", JInt 2)], 200)] |}
  = counter_file (Integer (0 + Z.of_nat 2)).
Proof.
  assert (Hv : min_int64 ≤ 0) by (unfold min_int64; lia).
  assert (Hn : 0 + Z.of_nat 2 ≤ max_int64) by (unfold max_int64; lia).
  refine (proj1 (no_lost_update 0 2 [0; 0; 0; 1; 1; 1; 0; 1]%nat _ Hv Hn _ _)).
  - vm_compute. reflexivity.
  - reflexivity.
Defined.

Lemma serial_schedule_answers_witness :
  run (serial 3) (arrivals 10 3)
  = Some {| file := counter_file (Integer (10 + Z.of_nat 3));
            requests := answers 10 3 |}.
Proof.
  assert (Hv : min_int64 ≤ 10) by (unfold min_int64; lia).
  assert (Hn : 10 + Z.of_nat 3 ≤ max_int64) by (unfold max_int64; lia).
  exact (serial_schedule_answers 10 3 Hv Hn).
Defined.

Lemma increment_outcome_by_faults_witness :
  stored_table
    (after increment_and_get_count
       {| disk := wal_file {[ 1 := Integer 4 ]}; txn := None;
          faults := [false; false; false; false; true]; log := [] |})
  = Some (if existsb id (take 4 [false; false; false; false; true])
          then {[ 1 := Integer 4 ]}
          else <[1 := Integer (4 + 1)]> {[ 1 := Integer 4 ]}).
Proof.
  assert (Hz : min_int64 ≤ 4 < max_int64) by (unfold min_int64, max_int64; lia).
  exact (proj2
    (increment_outcome_by_faults
       {| disk := wal_file {[ 1 := Integer 4 ]}; txn := None;
          faults := [false; false; false; false; true]; log := [] |}
       {[ 1 := Integer 4 ]} 4 eq_refl eq_refl Hz)).
Defined.

(** ** Several workers starting at once *)

Lemma count_workers_insert p (l : list worker) i k k' :
  l !! i = Some k →
  (count_workers p (<[i := k']> l) + (if p k then 1 else 0)
   = count_workers p l + (if p k' then 1 else 0))%nat.
Proof.
  revert i. induction l as [|x l IH]; intros [|i] H; try discriminate.
  - injection H as ->.
    change (<[0%nat := k']> (k :: l)) with (k' :: l). cbn [count_workers].
    destruct (p k), (p k'); lia.
  - change (<[S i := k']> (x :: l)) with (x :: <[i := k']> l).
    cbn [count_workers].
    specialize (IH i H). revert IH. destruct (p x), (p k), (p k'); lia.
Qed.

Lemma count_workers_zero p (l : list worker) i k :
  count_workers p l = 0%nat → l !! i = Some k → p k = false.
Proof.
  revert i. induction l as [|x l IH]; intros [|i] H0 H; try discriminate.
  - injection H as ->. cbn in H0. destruct (p k); [discriminate|reflexivity].
  - cbn in *. apply (IH i); [destruct (p x); [discriminate|exact H0]|exact H].
Qed.

Lemma existsb_count_workers p (l : list worker) :
  existsb p l = false → count_workers p l = 0%nat.
Proof.
  induction l as [|x l IH]; cbn; [reflexivity|].
  destruct (p x); cbn; [discriminate|exact IH].
Qed.

Lemma count_workers_replicate p n k :
  p k = false → count_workers p (replicate n k) = 0%nat.
Proof.
  intros Hp. induction n as [|n IH]; cbn; [reflexivity|]. rewrite Hp. exact IH.
Qed.

Lemma lookup_set_worker (l : list worker) i j k y :
  <[i := k]> l !! j = Some y → (j = i ∧ y = k) ∨ (j ≠ i ∧ l !! j = Some y).
Proof.
  intros H. apply list_lookup_insert_Some in H.
  destruct H as [(-> & -> & _)|[Hne H]]; [left|right]; auto.
Qed.

Ltac orderly_parts :=
  unfold orderly; cbn [workers store set_worker set_store visitors];
  refine (conj _ (conj _ (conj _ (conj _ (conj _ (conj _ _)))))).

(** The parts of [orderly] that a step carries over when the table and
    the counts are as before and the worker's new state [k'] is neither
    [Inserted] nor one that found the row. *)
Ltac carried_over Hj :=
  apply lookup_set_worker in Hj;
  destruct Hj as [[_ Hj]|[_ Hj]]; [try discriminate|eauto].

Lemma no_row_in_empty :
  Some (∅ : gmap Z sqlite_value) ≠ Some {[ 1 := Integer 0 ]}.
Proof.
  intros H. apply (f_equal (fun o => o ≫= (.!! 1))) in H.
  cbn in H. rewrite lookup_empty, lookup_singleton_eq in H. discriminate.
Qed.

Lemma advance_orderly n i f f' :
  orderly n f → advance i f = Some f' → orderly n f'.
Proof.
  intros (Hlen & Htb & Hex & Hone & Hins & Hrow & Hsaw) Hstep.
  unfold advance in Hstep.
  destruct (workers f !! i) as [k|] eqn:Hi; [|discriminate].
  pose proof (count_workers_insert holds_lock (workers f) i k) as Hl.
  pose proof (count_workers_insert has_seeded (workers f) i k) as Hs.
  destruct k as [| | | |view|logged|e].
  - (* PRAGMA *)
    cbn in Hstep. injection Hstep as <-.
    specialize (Hl Opened Hi). specialize (Hs Opened Hi). cbn in Hl, Hs.
    orderly_parts.
    + rewrite length_insert. exact Hlen.
    + exact Htb.
    + intros j y Hj Hy. carried_over Hj. subst y. discriminate.
    + lia.
    + intros j v Hj. carried_over Hj.
    + rewrite Hrow. split; lia.
    + intros j y Hj Hy. carried_over Hj. subst y. discriminate.
  - (* CREATE TABLE *)
    specialize (Hl Created Hi). specialize (Hs Created Hi). cbn in Hl, Hs.
    unfold exec_sql in Hstep.
    destruct (visitors (store f)) as [t|] eqn:Ht.
    + injection Hstep as <-. orderly_parts; rewrite ?Ht.
      * rewrite length_insert. exact Hlen.
      * exact Htb.
      * intros j y Hj Hy. discriminate.
      * lia.
      * intros j v Hj. carried_over Hj.
      * rewrite Hrow. split; lia.
      * intros j y Hj Hy. carried_over Hj. subst y. discriminate.
    + injection Hstep as <-. orderly_parts.
      * rewrite length_insert. exact Hlen.
      * right. left. reflexivity.
      * intros j y Hj Hy. discriminate.
      * lia.
      * intros j v Hj. carried_over Hj.
        destruct (Hins j v Hj) as [_ Hv]. discriminate.
      * split.
        -- intros H. destruct (no_row_in_empty H).
        -- intros H. assert (@None (gmap Z sqlite_value) = Some {[1 := Integer 0]})
             by (apply Hrow; lia). discriminate.
      * intros j y Hj Hy. carried_over Hj; [subst y; discriminate|].
        destruct (Hsaw j y Hj Hy) as [Hv _]. discriminate.
  - (* SELECT *)
    pose proof (Hex i Created Hi eq_refl) as Hne.
    destruct Htb as [Htb|[Htb|Htb]]; [congruence| |].
    + unfold exec_sql in Hstep. rewrite Htb, lookup_empty in Hstep.
      injection Hstep as <-.
      specialize (Hl Checked Hi). specialize (Hs Checked Hi). cbn in Hl, Hs.
      orderly_parts.
      * rewrite length_insert. exact Hlen.
      * right. left. exact Htb.
      * intros j y Hj Hy. exact Hne.
      * lia.
      * intros j v Hj. carried_over Hj.
      * rewrite Hrow. split; lia.
      * intros j y Hj Hy. carried_over Hj. subst y. discriminate.
    + unfold exec_sql in Hstep. rewrite Htb, lookup_singleton_eq in Hstep.
      injection Hstep as <-.
      specialize (Hl (Started false) Hi). specialize (Hs (Started false) Hi).
      cbn in Hl, Hs.
      orderly_parts.
      * rewrite length_insert. exact Hlen.
      * right. right. exact Htb.
      * intros j y Hj Hy. exact Hne.
      * lia.
      * intros j v Hj. carried_over Hj.
      * rewrite Hrow. split; lia.
      * intros j y Hj Hy. carried_over Hj. subst y. auto.
  - (* INSERT *)
    destruct (existsb holds_lock (workers f)) eqn:He; [discriminate|].
    apply existsb_count_workers in He.
    pose proof (Hex i Checked Hi eq_refl) as Hne.
    destruct Htb as [Htb|[Htb|Htb]]; [congruence| |].
    + unfold exec_sql, insert_row in Hstep. rewrite Htb in Hstep.
      cbn in Hstep. rewrite lookup_empty in Hstep. cbn in Hstep.
      rewrite insert_empty in Hstep. injection Hstep as <-.
      specialize (Hl (Inserted (Some {[1 := Integer 0]})) Hi).
      specialize (Hs (Inserted (Some {[1 := Integer 0]})) Hi). cbn in Hl, Hs.
      assert (H0 : count_workers has_seeded (workers f) ≠ 1%nat).
      { intros Hc. apply Hrow in Hc. rewrite Htb in Hc.
        destruct (no_row_in_empty Hc). }
      orderly_parts.
      * rewrite length_insert. exact Hlen.
      * right. left. exact Htb.
      * intros j y Hj Hy. exact Hne.
      * lia.
      * intros j v Hj. apply lookup_set_worker in Hj.
        destruct Hj as [[_ Hj]|[_ Hj]]; [injection Hj as <-; auto|].
        pose proof (count_workers_zero _ _ _ _ He Hj). discriminate.
      * rewrite Hrow. split; lia.
      * intros j y Hj Hy. carried_over Hj. subst y. discriminate.
    + unfold exec_sql, insert_row in Hstep. rewrite Htb in Hstep.
      cbn in Hstep. rewrite lookup_singleton_eq in Hstep. injection Hstep as <-.
      specialize (Hl (Crashed IntegrityError) Hi).
      specialize (Hs (Crashed IntegrityError) Hi). cbn in Hl, Hs.
      orderly_parts.
      * rewrite length_insert. exact Hlen.
      * right. right. exact Htb.
      * intros j y Hj Hy. exact Hne.
      * lia.
      * intros j v Hj. carried_over Hj.
      * rewrite Hrow. split; lia.
      * intros j y Hj Hy. carried_over Hj. subst y. auto.
  - (* commit *)
    injection Hstep as <-.
    destruct (Hins i view Hi) as [-> Htb0].
    specialize (Hl (Started true) Hi). specialize (Hs (Started true) Hi).
    cbn in Hl, Hs.
    assert (Hl0 : count_workers holds_lock (<[i:=Started true]> (workers f)) = 0%nat)
      by lia.
    orderly_parts.
    + rewrite length_insert. exact Hlen.
    + right. right. reflexivity.
    + intros j y Hj Hy. discriminate.
    + lia.
    + intros j v Hj. pose proof (count_workers_zero _ _ _ _ Hl0 Hj). discriminate.
    + split; [intros _; lia|reflexivity].
    + intros j y Hj Hy. carried_over Hj; [subst y; discriminate|].
      destruct (Hsaw j y Hj Hy) as [_ Hy']. auto.
  - discriminate.
  - discriminate.
Qed.

Lemma start_up_orderly (d : database) (n : nat) :
  visitors d = None ∨ visitors d = Some ∅ → orderly n (start_up d n).
Proof.
  intros Hd. unfold start_up. orderly_parts;
    rewrite ?count_workers_replicate by reflexivity.
  - apply length_replicate.
  - destruct Hd as [Hd|Hd]; auto.
  - intros i k Hi Hk. apply lookup_replicate in Hi. destruct Hi as [-> _].
    discriminate.
  - lia.
  - intros i v Hi. apply lookup_replicate in Hi. destruct Hi; discriminate.
  - split; [|discriminate]. intros H.
    destruct Hd as [Hd|Hd]; rewrite Hd in H; [discriminate|].
    destruct (no_row_in_empty H).
  - intros i k Hi Hk. apply lookup_replicate in Hi. destruct Hi as [-> _].
    discriminate.
Qed.

Lemma boot_orderly n schedule f f' :
  orderly n f → boot schedule f = Some f' → orderly n f'.
Proof.
  revert f. induction schedule as [|i rest IH]; intros f Hf H.
  - injection H as <-. exact Hf.
  - cbn in H. destruct (advance i f) as [f1|] eqn:H1; [|discriminate].
    apply (IH f1); [|exact H]. exact (advance_orderly n i f f1 Hf H1).
Qed.

(** When [n] workers start at once on a store without the counter row
    and all have finished, whatever the interleaving: the table holds
    the single row (1, 0); exactly one worker seeded it; every other
    worker returned without seeding or raised [IntegrityError] from its
    INSERT.  The second case does occur, already with two workers. *)
Theorem startup_seeds_once (d : database) (n : nat) (schedule : list nat)
    (f : fleet) :
  visitors d = None ∨ visitors d = Some ∅ → (1 ≤ n)%nat →
  boot schedule (start_up d n) = Some f → all_finished f = true →
  (visitors (store f) = Some {[ 1 := Integer 0 ]}
   ∧ count_workers has_seeded (workers f) = 1%nat
   ∧ ∀ i k, workers f !! i = Some k →
       k = Started true ∨ k = Started false ∨ k = Crashed IntegrityError)
  ∧ boot [0; 0; 0; 1; 1; 1; 0; 0; 1]%nat (start_up empty_database 2)
    = Some {| store := {| journal_wal := true;
                          visitors := Some {[ 1 := Integer 0 ]} |};
              workers := [Started true; Crashed IntegrityError] |}.
Proof.
  intros Hd Hn Hboot Hall. split; [|vm_compute; reflexivity].
  destruct (boot_orderly n schedule _ f (start_up_orderly d n Hd) Hboot)
    as (Hlen & Htb & Hex & Hone & Hins & Hrow & Hsaw).
  unfold all_finished in Hall. rewrite forallb_forall in Hall.
  assert (Hfin : ∀ i k, workers f !! i = Some k →
            k = Started true ∨ saw_row k = true).
  { intros i k Hi.
    assert (Hk : has_finished k = true).
    { apply Hall. apply list_elem_of_In. eapply list_elem_of_lookup_2. exact Hi. }
    destruct k as [| | | |v|[]|e]; try discriminate; auto. }
  assert (Htable : visitors (store f) = Some {[ 1 := Integer 0 ]}).
  { destruct (workers f) as [|k l] eqn:Hw; [cbn in Hlen; lia|].
    destruct (Hfin 0%nat k eq_refl) as [->|Hk].
    - apply Hrow. cbn in Hone |- *.
      destruct (count_workers has_seeded l); lia.
    - exact (proj1 (Hsaw 0%nat k eq_refl Hk)). }
  repeat apply conj.
  - exact Htable.
  - apply Hrow. exact Htable.
  - intros i k Hi. destruct (Hfin i k Hi) as [->|Hk]; [auto|].
    destruct (Hsaw i k Hi Hk) as [_ [->| ->]]; auto.
Qed.

Lemma startup_seeds_once_witness :
  count_workers has_seeded [Started true; Started false] = 1%nat.
Proof.
  refine (proj1 (proj2 (proj1
    (startup_seeds_once empty_database 2 [0; 0; 0; 0; 0; 1; 1; 1]%nat
       {| store := {| journal_wal := true;
                      visitors := Some {[ 1 := Integer 0 ]} |};
          workers := [Started true; Started false] |}
       (or_introl eq_refl) _ _ eq_refl)))).
  - lia.
  - vm_compute. reflexivity.
Defined.

Lemma advance_unseeding (c : sqlite_value) i f f' :
  visitors (store f) = Some {[ 1 := c ]} → Forall unseeding (workers f) →
  advance i f = Some f' →
  visitors (store f') = Some {[ 1 := c ]} ∧ Forall unseeding (workers f').
Proof.
  intros Ht Hw Hstep. unfold advance in Hstep.
  destruct (workers f !! i) as [k|] eqn:Hi; [|discriminate].
  pose proof (Forall_lookup_1 _ _ _ _ Hw Hi) as [->|[->|[->| ->]]].
  - cbn in Hstep. injection Hstep as <-. cbn. split; [exact Ht|].
    apply Forall_insert; [exact Hw|]. right. left. reflexivity.
  - unfold exec_sql in Hstep. rewrite Ht in Hstep. injection Hstep as <-.
    cbn. split; [exact Ht|].
    apply Forall_insert; [exact Hw|]. right. right. left. reflexivity.
  - unfold exec_sql in Hstep. rewrite Ht, lookup_singleton_eq in Hstep.
    injection Hstep as <-. cbn. split; [exact Ht|].
    apply Forall_insert; [exact Hw|]. right. right. right. reflexivity.
  - discriminate.
Qed.

(** When [n] workers start at once on a store that holds the counter
    row, whatever it holds and whatever the interleaving: the row is
    never touched, no worker seeds, inserts or raises, and the workers
    that have finished returned normally. *)
Theorem startup_keeps_row (d : database) (c : sqlite_value) (n : nat)
    (schedule : list nat) (f : fleet) :
  visitors d = Some {[ 1 := c ]} →
  boot schedule (start_up d n) = Some f →
  visitors (store f) = Some {[ 1 := c ]}
  ∧ ∀ i k, workers f !! i = Some k →
      unseeding k ∧ (has_finished k = true → k = Started false).
Proof.
  intros Hd Hboot.
  assert (H : visitors (store f) = Some {[ 1 := c ]} ∧ Forall unseeding (workers f)).
  { assert (H0 : visitors (store (start_up d n)) = Some {[ 1 := c ]}
                 ∧ Forall unseeding (workers (start_up d n))).
    { split; [exact Hd|]. cbn. apply Forall_replicate. left. reflexivity. }
    revert H0 Hboot. generalize (start_up d n).
    induction schedule as [|i rest IH]; intros g [Hg Hw] Hb.
    - injection Hb as <-. auto.
    - cbn in Hb. destruct (advance i g) as [g1|] eqn:H1; [|discriminate].
      apply (IH g1); [|exact Hb]. exact (advance_unseeding c i g g1 Hg Hw H1). }
  destruct H as [Ht Hw]. split; [exact Ht|].
  intros i k Hi. pose proof (Forall_lookup_1 _ _ _ _ Hw Hi) as Hk.
  split; [exact Hk|].
  destruct Hk as [->|[->|[->| ->]]]; intros Hf; try discriminate; reflexivity.
Qed.

Lemma startup_keeps_row_witness :
  visitors
    (store {| store := {| journal_wal := true;
                          visitors := Some {[ 1 := Integer 12 ]} |};
              workers := [Started false; Created] |})
  = Some {[ 1 := Integer 12 ]}.
Proof.
  refine (proj1
    (startup_keeps_row (wal_file {[ 1 := Integer 12 ]}) (Integer 12) 2
       [0; 1; 0; 1; 0]%nat _ eq_refl _)).
  vm_compute. reflexivity.
Defined.
